(** * Radiation alert system (src/radiacao.py): a shallow embedding

    The source is a MyHDL design.  [RadiationAlertSystem] elaborates one
    block whose only process is [check_radiation]; [test_radiation_alert]
    instantiates it with concrete signal widths and drives it with a fixed
    list of readings.

    MyHDL signal semantics, as used by the source:
    - a [Signal] holds a current value and a pending next value; reading a
      signal in an expression ([alert_mode != 0], [int(radiation_level)],
      [exposure_time + 1]) gives the CURRENT value, also after [.next] has
      been assigned earlier in the same activation;
    - [sig.next = v] records a pending write; for an [intbv] signal the
      bounds are checked at that moment and [ValueError] is raised when
      [v < min] or [v >= max] ([max] is exclusive: [intbv(0)[16:]] has
      [max = 65536]);
    - when the activation returns, the kernel copies every pending value
      into the current value; a signal that was not assigned keeps its value.

    One tick of the model is: the stimulus drives [radiation_level]
    (line 82), the kernel commits it, [check_radiation] runs once, the
    kernel commits its pending writes.  The further activations the MyHDL
    scheduler would start because [check_radiation] reads signals it also
    writes are not part of a tick: a tick is one evaluation of lines 22-50
    per reading. *)

From stdpp Require Import base list.
From Stdlib Require Import ZArith Lia.

Local Open Scope Z_scope.

(** ** Signals *)

(** Every [intbv] of this design has [min = 0]; only [max] varies. *)
Module Signal.
Record t : Type := mk { val : Z; max : Z }.
End Signal.

Definition set_val (v : Z) (s : Signal.t) : Signal.t :=
  Signal.mk v (Signal.max s).

(** [Signal(intbv(v)[n:])]: an [n]-bit signal, [max = 2^n]. *)
Definition intbv_bits (v n : Z) : Signal.t := Signal.mk v (2 ^ n).

(** ** Exceptions and results *)

Inductive exn : Type := ValueError | IndexError.

Inductive result (A : Type) : Type :=
| Ok (a : A)
| Raise (e : exn).
Arguments Ok {A} a.
Arguments Raise {A} e.

#[global] Instance result_ret : MRet result := λ A a, Ok a.
#[global] Instance result_bind : MBind result := λ A B f m,
  match m with Ok a => f a | Raise e => Raise e end.

(** ** Pending writes *)

(** The signals that are assigned somewhere in the source. *)
Inductive target : Type :=
| t_radiation_level
| t_alert
| t_alert_mode
| t_exposure_time
| t_accumulated_radiation
| t_event_radiation_log (i : nat)
| t_event_alert_log (i : nat)
| t_protection_mode
| t_log_index.

(** [Next tg v] is one executed [tg.next = v]. *)
Inductive assign : Type := Next (tg : target) (v : Z).

(** One activation of a process: it either finishes with the list of its
    pending writes, in program order, or is aborted by an exception. *)
Inductive proc (A : Type) : Type :=
| Done (a : A) (w : list assign)
| Raised (e : exn).
Arguments Done {A} a w.
Arguments Raised {A} e.

#[global] Instance proc_ret : MRet proc := λ A a, Done a [].
#[global] Instance proc_bind : MBind proc := λ A B f m,
  match m with
  | Raised e => Raised e
  | Done a w =>
      match f a with
      | Raised e => Raised e
      | Done b w' => Done b (w ++ w')
      end
  end.

(** [s.next = v] with the bounds check of [intbv]. *)
Definition set_next (tg : target) (s : Signal.t) (v : Z) : proc unit :=
  if (0 <=? v) && (v <? Signal.max s) then Done tt [Next tg v]
  else Raised ValueError.

(** [l[i]] for [i >= 0] (the index is [int(log_index)], and [log_index] has
    [min = 0]); out of range raises [IndexError]. *)
Definition getitem (l : list Signal.t) (i : Z) : proc Signal.t :=
  match l !! Z.to_nat i with
  | Some s => Done s []
  | None => Raised IndexError
  end.

(** ** The block *)

(** The nine ports of [RadiationAlertSystem], and what its body adds:
    the constants [max_exposure_time] and [critical_limit] and the
    internal signal [log_index]. *)
Record Block : Type := mkBlock {
  radiation_level : Signal.t;
  limit : Signal.t;
  alert : Signal.t;
  alert_mode : Signal.t;
  exposure_time : Signal.t;
  accumulated_radiation : Signal.t;
  event_radiation_log : list Signal.t;
  event_alert_log : list Signal.t;
  protection_mode : Signal.t;
  max_exposure_time : Z;
  critical_limit : Z;
  log_index : Signal.t
}.

(** [Signal(intbv(v, min=0, max=hi))]: the constructor checks the bounds. *)
Definition intbv (v hi : Z) : result Signal.t :=
  if (0 <=? v) && (v <? hi) then Ok (Signal.mk v hi) else Raise ValueError.

(** Lines 17-19.  [critical_limit] is computed once, from the value [limit]
    has at elaboration time. *)
Definition RadiationAlertSystem
    (radiation_level limit alert alert_mode exposure_time
       accumulated_radiation : Signal.t)
    (event_radiation_log event_alert_log : list Signal.t)
    (protection_mode : Signal.t) : result Block :=
  log_index ← intbv 0 (Z.of_nat (length event_radiation_log));
  Ok (mkBlock radiation_level limit alert alert_mode exposure_time
        accumulated_radiation event_radiation_log event_alert_log
        protection_mode 3 (Signal.val limit + 50) log_index).

(** Lines 22-50.  Every read is of a current value. *)
Definition check_radiation (b : Block) : proc unit :=
  let new_accumulated :=
    Signal.val (accumulated_radiation b) + Signal.val (radiation_level b) in
  (if new_accumulated <? Signal.max (accumulated_radiation b)
   then set_next t_accumulated_radiation (accumulated_radiation b)
          new_accumulated
   else set_next t_accumulated_radiation (accumulated_radiation b)
          (Signal.max (accumulated_radiation b) - 1)) ;;
  (if Signal.val (radiation_level b) >? critical_limit b
   then set_next t_alert_mode (alert_mode b) 2 ;;
        set_next t_protection_mode (protection_mode b) 1
   else if Signal.val (radiation_level b) >? Signal.val (limit b)
   then set_next t_alert_mode (alert_mode b) 1
   else set_next t_alert_mode (alert_mode b) 0 ;;
        set_next t_protection_mode (protection_mode b) 0) ;;
  (if negb (Signal.val (alert_mode b) =? 0)
   then set_next t_exposure_time (exposure_time b)
          (Signal.val (exposure_time b) + 1)
   else set_next t_exposure_time (exposure_time b) 0) ;;
  (if (Signal.val (exposure_time b) >=? max_exposure_time b)
      || (Signal.val (accumulated_radiation b) >=? 300)
   then set_next t_alert (alert b) 1 ;;
        (s ← getitem (event_radiation_log b) (Signal.val (log_index b));
         set_next (t_event_radiation_log (Z.to_nat (Signal.val (log_index b))))
           s (Signal.val (radiation_level b))) ;;
        (s ← getitem (event_alert_log b) (Signal.val (log_index b));
         set_next (t_event_alert_log (Z.to_nat (Signal.val (log_index b))))
           s (Signal.val (alert_mode b))) ;;
        set_next t_log_index (log_index b)
          ((Signal.val (log_index b) + 1)
             mod Z.of_nat (length (event_radiation_log b)))
   else set_next t_alert (alert b) 0).

(** ** The kernel: committing pending writes *)

Definition commit (b : Block) (a : assign) : Block :=
  let '(Next tg v) := a in
  {| radiation_level :=
       match tg with
       | t_radiation_level => set_val v (radiation_level b)
       | _ => radiation_level b
       end;
     limit := limit b;
     alert :=
       match tg with t_alert => set_val v (alert b) | _ => alert b end;
     alert_mode :=
       match tg with
       | t_alert_mode => set_val v (alert_mode b)
       | _ => alert_mode b
       end;
     exposure_time :=
       match tg with
       | t_exposure_time => set_val v (exposure_time b)
       | _ => exposure_time b
       end;
     accumulated_radiation :=
       match tg with
       | t_accumulated_radiation => set_val v (accumulated_radiation b)
       | _ => accumulated_radiation b
       end;
     event_radiation_log :=
       match tg with
       | t_event_radiation_log i => alter (set_val v) i (event_radiation_log b)
       | _ => event_radiation_log b
       end;
     event_alert_log :=
       match tg with
       | t_event_alert_log i => alter (set_val v) i (event_alert_log b)
       | _ => event_alert_log b
       end;
     protection_mode :=
       match tg with
       | t_protection_mode => set_val v (protection_mode b)
       | _ => protection_mode b
       end;
     max_exposure_time := max_exposure_time b;
     critical_limit := critical_limit b;
     log_index :=
       match tg with
       | t_log_index => set_val v (log_index b)
       | _ => log_index b
       end |}.

Definition update (b : Block) (w : list assign) : Block :=
  fold_left commit w b.

(** Line 82: the stimulus assigns the reading to [radiation_level], and the
    kernel commits it. *)
Definition drive (b : Block) (reading : Z) : result Block :=
  match set_next t_radiation_level (radiation_level b) reading with
  | Done _ w => Ok (update b w)
  | Raised e => Raise e
  end.

(** One activation of [check_radiation]: its pending writes. *)
Definition activate (b : Block) : result (list assign) :=
  match check_radiation b with
  | Done _ w => Ok w
  | Raised e => Raise e
  end.

(** One tick: drive, activate, commit. *)
Definition tick (b : Block) (reading : Z) : result Block :=
  b1 ← drive b reading;
  w ← activate b1;
  Ok (update b1 w).

Fixpoint run (b : Block) (readings : list Z) : result Block :=
  match readings with
  | [] => Ok b
  | r :: rs => b' ← tick b r; run b' rs
  end.

(** ** The test bench (lines 56-74) *)

Definition test_radiation_alert : result Block :=
  RadiationAlertSystem
    (intbv_bits 0 8) (intbv_bits 100 8) (intbv_bits 0 1) (intbv_bits 0 2)
    (intbv_bits 0 4) (intbv_bits 0 16)
    (replicate 10 (intbv_bits 0 8)) (replicate 10 (intbv_bits 0 2))
    (intbv_bits 0 1).

Definition radiation_levels : list Z :=
  [45; 75; 150; 90; 200; 50; 110; 160; 40; 180].

(** The block of the test bench, before the first tick. *)
Definition bench : Block :=
  match test_radiation_alert with
  | Ok b => b
  | Raise _ => mkBlock (Signal.mk 0 0) (Signal.mk 0 0) (Signal.mk 0 0)
                 (Signal.mk 0 0) (Signal.mk 0 0) (Signal.mk 0 0) [] []
                 (Signal.mk 0 0) 0 0 (Signal.mk 0 0)
  end.

(** The block of the test bench after the given readings ([bench] itself
    when the run is aborted). *)
Definition after (readings : list Z) : Block :=
  match run bench readings with
  | Ok b => b
  | Raise _ => bench
  end.

(** A block elaborated as in the test bench but with [limit = 10], and
    its state after the given readings. *)
Definition low_limit_bench : Block :=
  match RadiationAlertSystem
          (intbv_bits 0 8) (intbv_bits 10 8) (intbv_bits 0 1)
          (intbv_bits 0 2) (intbv_bits 0 4) (intbv_bits 0 16)
          (replicate 10 (intbv_bits 0 8)) (replicate 10 (intbv_bits 0 2))
          (intbv_bits 0 1) with
  | Ok b => b
  | Raise _ => bench
  end.

Definition after_low (readings : list Z) : Block :=
  match run low_limit_bench readings with
  | Ok b => b
  | Raise _ => low_limit_bench
  end.

(** ** Representable states

    The sizing of the test bench: 8-bit reading and limit, 1-bit flags,
    2-bit mode, 4-bit exposure counter, 16-bit accumulator, logs of 8-bit
    and 2-bit entries of one common length, and the constants as
    [RadiationAlertSystem] computes them.  Every value lies within the
    bounds of its signal. *)

Definition sized (m : Z) (s : Signal.t) : bool :=
  (Signal.max s =? m) && (0 <=? Signal.val s) && (Signal.val s <? m).

Definition representable (b : Block) : bool :=
  sized 256 (radiation_level b) && sized 256 (limit b)
  && sized 2 (alert b) && sized 4 (alert_mode b)
  && sized 16 (exposure_time b) && sized 65536 (accumulated_radiation b)
  && forallb (sized 256) (event_radiation_log b)
  && forallb (sized 4) (event_alert_log b)
  && sized 2 (protection_mode b)
  && (max_exposure_time b =? 3)
  && (critical_limit b =? Signal.val (limit b) + 50)
  && sized (Z.of_nat (length (event_radiation_log b))) (log_index b)
  && (length (event_alert_log b) =? length (event_radiation_log b))%nat.

(** The condition of line 44, on the current values. *)
Definition trip (b : Block) : bool :=
  (Signal.val (exposure_time b) >=? max_exposure_time b)
  || (Signal.val (accumulated_radiation b) >=? 300).

(** ** Observing a run *)

(** The states after each tick of a run, up to the first aborted one. *)
Fixpoint trace (b : Block) (readings : list Z) : list Block :=
  match readings with
  | [] => []
  | r :: rs =>
      match tick b r with
      | Ok b' => b' :: trace b' rs
      | Raise _ => []
      end
  end.

(** The log records written along a run, oldest first: one per tick whose
    activation takes the branch of line 45, made of the two values lines 46
    and 47 assign ([int(radiation_level)] and [int(alert_mode)]). *)
Fixpoint log_entries (b : Block) (readings : list Z) : list (Z * Z) :=
  match readings with
  | [] => []
  | r :: rs =>
      match tick b r with
      | Ok b' =>
          (if trip b then [(r, Signal.val (alert_mode b))] else [])
          ++ log_entries b' rs
      | Raise _ => []
      end
  end.

(** The pending writes of [check_radiation] at each tick of a run, up to
    the first aborted one. *)
Fixpoint writes (b : Block) (readings : list Z) : list (list assign) :=
  match readings with
  | [] => []
  | r :: rs =>
      match drive b r with
      | Ok b1 =>
          match activate b1 with
          | Ok w => w :: writes (update b1 w) rs
          | Raise _ => []
          end
      | Raise _ => []
      end
  end.

#[global] Instance target_eq_dec : EqDecision target.
Proof. solve_decision. Defined.

(** The signals a list of pending writes assigns. *)
Definition written (w : list assign) : list target :=
  map (λ a, let '(Next tg _) := a in tg) w.

(** The number of the last tick that assigns [tg], ticks counted from 0. *)
Fixpoint last_write (tg : target) (ws : list (list assign)) : option nat :=
  match ws with
  | [] => None
  | w :: ws' =>
      match last_write tg ws' with
      | Some t => Some (S t)
      | None => if bool_decide (tg ∈ written w) then Some 0%nat else None
      end
  end.

(** The record held at position [i] of the two parallel logs. *)
Definition log_record (b : Block) (i : nat) : option (Z * Z) :=
  match event_radiation_log b !! i, event_alert_log b !! i with
  | Some s1, Some s2 => Some (Signal.val s1, Signal.val s2)
  | _, _ => None
  end.

(** The sum of a list of readings. *)
Definition dose (readings : list Z) : Z := foldr Z.add 0 readings.

(** ** The properties, as definitions *)

(** The facts packed in [representable]. *)
Record Wf (b : Block) : Prop := {
  wf_radiation_level : sized 256 (radiation_level b) = true;
  wf_limit : sized 256 (limit b) = true;
  wf_alert : sized 2 (alert b) = true;
  wf_alert_mode : sized 4 (alert_mode b) = true;
  wf_exposure_time : sized 16 (exposure_time b) = true;
  wf_accumulated_radiation : sized 65536 (accumulated_radiation b) = true;
  wf_event_radiation_log :
    Forall (λ s, sized 256 s = true) (event_radiation_log b);
  wf_event_alert_log : Forall (λ s, sized 4 s = true) (event_alert_log b);
  wf_protection_mode : sized 2 (protection_mode b) = true;
  wf_max_exposure_time : max_exposure_time b = 3;
  wf_critical_limit : critical_limit b = Signal.val (limit b) + 50;
  wf_log_index :
    sized (Z.of_nat (length (event_radiation_log b))) (log_index b) = true;
  wf_length : length (event_alert_log b) = length (event_radiation_log b)
}.

(** The pending writes of an activation that is not aborted, written
    out: on a representable block every bounds check of [check_radiation]
    succeeds but the one of line 40, and both log lookups succeed. *)
Definition pending (b : Block) : list assign :=
  let rl := Signal.val (radiation_level b) in
  let acc := Signal.val (accumulated_radiation b) in
  let mode := Signal.val (alert_mode b) in
  let idx := Signal.val (log_index b) in
  [Next t_accumulated_radiation
     (if acc + rl <? 65536 then acc + rl else 65535)]
  ++ (if rl >? critical_limit b
      then [Next t_alert_mode 2; Next t_protection_mode 1]
      else if rl >? Signal.val (limit b) then [Next t_alert_mode 1]
      else [Next t_alert_mode 0; Next t_protection_mode 0])
  ++ [Next t_exposure_time
        (if mode =? 0 then 0 else Signal.val (exposure_time b) + 1)]
  ++ (if trip b
      then [Next t_alert 1;
            Next (t_event_radiation_log (Z.to_nat idx)) rl;
            Next (t_event_alert_log (Z.to_nat idx)) mode;
            Next t_log_index
              ((idx + 1) mod Z.of_nat (length (event_radiation_log b)))]
      else [Next t_alert 0]).

(** What a tick that is not aborted does to each signal. *)
Record tick_post (b : Block) (r : Z) (b' : Block) : Prop := {
  post_reading : 0 ≤ r < 256;
  post_counter :
    Signal.val (alert_mode b) = 0 ∨ Signal.val (exposure_time b) < 15;
  post_radiation_level : radiation_level b' = set_val r (radiation_level b);
  post_limit : limit b' = limit b;
  post_max_exposure_time : max_exposure_time b' = max_exposure_time b;
  post_critical_limit : critical_limit b' = critical_limit b;
  post_accumulated_radiation :
    accumulated_radiation b' =
      set_val
        (if Signal.val (accumulated_radiation b) + r <? 65536
         then Signal.val (accumulated_radiation b) + r else 65535)
        (accumulated_radiation b);
  post_alert_mode :
    alert_mode b' =
      set_val
        (if r >? critical_limit b then 2
         else if r >? Signal.val (limit b) then 1 else 0)
        (alert_mode b);
  post_protection_mode :
    protection_mode b' =
      if r >? critical_limit b then set_val 1 (protection_mode b)
      else if r >? Signal.val (limit b) then protection_mode b
      else set_val 0 (protection_mode b);
  post_exposure_time :
    exposure_time b' =
      set_val
        (if Signal.val (alert_mode b) =? 0 then 0
         else Signal.val (exposure_time b) + 1)
        (exposure_time b);
  post_alert : alert b' = set_val (if trip b then 1 else 0) (alert b);
  post_event_radiation_log :
    event_radiation_log b' =
      if trip b
      then alter (set_val r) (Z.to_nat (Signal.val (log_index b)))
             (event_radiation_log b)
      else event_radiation_log b;
  post_event_alert_log :
    event_alert_log b' =
      if trip b
      then alter (set_val (Signal.val (alert_mode b)))
             (Z.to_nat (Signal.val (log_index b))) (event_alert_log b)
      else event_alert_log b;
  post_log_index :
    log_index b' =
      if trip b
      then set_val
             ((Signal.val (log_index b) + 1)
                mod Z.of_nat (length (event_radiation_log b)))
             (log_index b)
      else log_index b
}.

(** The coupling of protection and mode: protection is on exactly when the
    mode is 2 (critical). *)
Definition protection_coupled (b : Block) : Prop :=
  Signal.val (protection_mode b) = 1 ↔ Signal.val (alert_mode b) = 2.

(** Along the runs of the test bench the accumulator bounds the exposure
    counter: every counted tick followed a reading above [limit = 100]. *)
Definition dose_bound (b : Block) : Prop :=
  Signal.val (limit b) = 100
  ∧ Z.min 65535
      (101 * (Signal.val (exposure_time b)
              + (if Signal.val (alert_mode b) =? 0 then 0 else 1)))
    ≤ Signal.val (accumulated_radiation b).

(** [hs] being the records written so far, the cursor is their number
    modulo the capacity, and each of the last [capacity] records sits at
    its number modulo the capacity. *)
Definition ring (b : Block) (hs : list (Z * Z)) : Prop :=
  let C := length (event_radiation_log b) in
  Z.to_nat (Signal.val (log_index b)) = (length hs mod C)%nat
  ∧ ∀ j, (j < length hs)%nat → (length hs ≤ j + C)%nat →
         log_record b (j mod C)%nat = hs !! j.

(** ** Readings used as examples *)

(** Ten readings of 255 and one of 0, twenty-six times over: the sum
    passes 65535 and the exposure counter is reset in time. *)
Definition saturating_readings : list Z :=
  concat (replicate 26 (replicate 10 255 ++ [0])).

(** Two readings of 255, then twelve safe readings: the twelve ticks after
    the second one all trip, on a log of capacity ten. *)
Definition wrapping_readings : list Z :=
  [255; 255; 1; 2; 3; 4; 5; 6; 7; 8; 9; 10; 11; 12].

(** ** Basic facts *)

Example test_radiation_alert_ok : test_radiation_alert = Ok bench.
Proof. reflexivity. Qed.

Lemma sized_spec m s :
  sized m s = true ↔ Signal.max s = m ∧ 0 ≤ Signal.val s < m.
Proof.
  unfold sized. rewrite !andb_true_iff, Z.eqb_eq, Z.leb_le, Z.ltb_lt. lia.
Qed.

Lemma sized_set_val m s v :
  sized m s = true → 0 ≤ v < m → sized m (set_val v s) = true.
Proof. rewrite !sized_spec. simpl. lia. Qed.

Lemma set_next_ok tg s v :
  0 ≤ v < Signal.max s → set_next tg s v = Done tt [Next tg v].
Proof.
  intros H. unfold set_next.
  destruct (Z.leb_spec 0 v), (Z.ltb_spec v (Signal.max s)); simpl; auto; lia.
Qed.

Lemma set_next_raise tg s v :
  Signal.max s ≤ v → set_next tg s v = Raised ValueError.
Proof.
  intros H. unfold set_next.
  destruct (Z.ltb_spec v (Signal.max s)); [lia|]. now rewrite andb_false_r.
Qed.

Lemma forallb_Forall {A} (f : A → bool) (l : list A) :
  forallb f l = true ↔ Forall (λ x, f x = true) l.
Proof.
  induction l as [|x l IH]; simpl.
  - split; auto.
  - rewrite andb_true_iff, Forall_cons, IH. reflexivity.
Qed.

Lemma representable_Wf b : representable b = true ↔ Wf b.
Proof.
  unfold representable. rewrite !andb_true_iff, !forallb_Forall.
  rewrite !Z.eqb_eq, Nat.eqb_eq. split.
  - intros H. decompose [and] H. now constructor.
  - intros []. tauto.
Qed.

(** ** One activation, written out *)

Lemma getitem_ok (P : Signal.t → Prop) (l : list Signal.t) (i : Z) :
  Forall P l → 0 ≤ i < Z.of_nat (length l) →
  ∃ s, getitem l i = Done s [] ∧ P s.
Proof.
  intros HP Hi. unfold getitem.
  destruct (lookup_lt_is_Some_2 l (Z.to_nat i)) as [s Hs]; [lia|].
  rewrite Hs. exists s. split; [reflexivity|].
  eapply Forall_lookup_1; eauto.
Qed.

Lemma activate_Wf b :
  Wf b →
  activate b =
    if negb (Signal.val (alert_mode b) =? 0)
       && (Signal.val (exposure_time b) =? 15)
    then Raise ValueError
    else Ok (pending b).
Proof.
  intros [Hrl Hlim Hal Hmode Hexp Hacc Hrlog Halog Hprot Hmax Hcrit Hidx Hlen].
  rewrite sized_spec in *.
  destruct (getitem_ok _ _ (Signal.val (log_index b)) Hrlog) as (s1 & Hs1 & Hm1);
    [lia|].
  destruct (getitem_ok _ _ (Signal.val (log_index b)) Halog) as (s2 & Hs2 & Hm2);
    [lia|].
  rewrite sized_spec in *.
  assert (Hmod : 0 ≤ (Signal.val (log_index b) + 1)
                      mod Z.of_nat (length (event_radiation_log b))
                 < Signal.max (log_index b)).
  { destruct Hidx as [-> ?]. apply Z.mod_pos_bound. lia. }
  unfold activate, check_radiation, pending, trip.
  rewrite Hs1, Hs2.
  destruct Hacc as [Hmacc Hacc]. rewrite Hmacc.
  rewrite !Z.gtb_ltb, !Z.geb_leb.
  generalize dependent ((Signal.val (log_index b) + 1)
                          mod Z.of_nat (length (event_radiation_log b))).
  intros m Hm.
  destruct (Z.ltb_spec (Signal.val (accumulated_radiation b)
                        + Signal.val (radiation_level b)) 65536);
    destruct (Z.ltb_spec (critical_limit b) (Signal.val (radiation_level b)));
    destruct (Z.ltb_spec (Signal.val (limit b))
                (Signal.val (radiation_level b)));
    destruct (Z.eqb_spec (Signal.val (alert_mode b)) 0);
    destruct (Z.eqb_spec (Signal.val (exposure_time b)) 15);
    destruct (orb _ _);
    try (exfalso; lia);
    simpl negb; simpl andb; cbv iota;
    rewrite ?(set_next_raise t_exposure_time) by lia;
    repeat (rewrite ?set_next_ok by lia; unfold mbind, proc_bind);
    reflexivity.
Qed.

(** ** One tick, field by field *)

Lemma drive_Wf b r :
  Wf b →
  drive b r =
    if (0 <=? r) && (r <? 256)
    then Ok (update b [Next t_radiation_level r])
    else Raise ValueError.
Proof.
  intros Hb. pose proof (wf_radiation_level b Hb) as H.
  apply sized_spec in H. destruct H as [H _].
  unfold drive, set_next. rewrite H.
  now destruct ((0 <=? r) && (r <? 256)).
Qed.

Lemma Wf_driven b r :
  Wf b → 0 ≤ r < 256 → Wf (update b [Next t_radiation_level r]).
Proof.
  intros [] Hr. constructor; simpl; auto using sized_set_val.
Qed.


Lemma update_pending_post b r :
  0 ≤ r < 256 →
  Signal.val (alert_mode b) = 0 ∨ Signal.val (exposure_time b) < 15 →
  tick_post b r
    (update (update b [Next t_radiation_level r])
       (pending (update b [Next t_radiation_level r]))).
Proof.
  intros Hr Hc. constructor; auto; unfold pending, trip;
    cbn [update fold_left commit radiation_level limit alert alert_mode
           exposure_time accumulated_radiation event_radiation_log
           event_alert_log protection_mode max_exposure_time critical_limit
           log_index Signal.val Signal.max set_val];
    destruct (Signal.val (accumulated_radiation b) + r <? 65536),
      (r >? critical_limit b), (r >? Signal.val (limit b)),
      (Signal.val (alert_mode b) =? 0),
      ((Signal.val (exposure_time b) >=? max_exposure_time b)
       || (Signal.val (accumulated_radiation b) >=? 300));
    reflexivity.
Qed.

Lemma tick_Wf b r :
  Wf b →
  tick b r =
    if (0 <=? r) && (r <? 256)
    then if negb (Signal.val (alert_mode b) =? 0)
            && (Signal.val (exposure_time b) =? 15)
         then Raise ValueError
         else Ok (update (update b [Next t_radiation_level r])
                    (pending (update b [Next t_radiation_level r])))
    else Raise ValueError.
Proof.
  intros Hb. unfold tick. rewrite drive_Wf by assumption.
  destruct (Z.leb_spec 0 r), (Z.ltb_spec r 256); try reflexivity.
  simpl andb. cbv iota. unfold mbind at 1, result_bind at 1.
  rewrite activate_Wf by (apply Wf_driven; auto). simpl.
  now destruct (_ && _).
Qed.

Lemma tick_inv b r b' : Wf b → tick b r = Ok b' → tick_post b r b'.
Proof.
  intros Hb. rewrite tick_Wf by assumption.
  destruct (Z.leb_spec 0 r), (Z.ltb_spec r 256); try discriminate.
  simpl andb. cbv iota.
  destruct (Z.eqb_spec (Signal.val (alert_mode b)) 0) as [Hm|Hm],
    (Z.eqb_spec (Signal.val (exposure_time b)) 15) as [He|He];
    simpl; try discriminate;
    intros [= <-]; apply update_pending_post; auto.
  apply wf_exposure_time, sized_spec in Hb. lia.
Qed.

Lemma tick_total b r :
  Wf b → 0 ≤ r < 256 →
  Signal.val (alert_mode b) = 0 ∨ Signal.val (exposure_time b) < 15 →
  ∃ b', tick b r = Ok b'.
Proof.
  intros Hb Hr Hc. rewrite tick_Wf by assumption.
  destruct (Z.leb_spec 0 r), (Z.ltb_spec r 256); try lia.
  destruct (Z.eqb_spec (Signal.val (alert_mode b)) 0),
    (Z.eqb_spec (Signal.val (exposure_time b)) 15); simpl; eauto; lia.
Qed.

Lemma tick_post_Wf b r b' : Wf b → tick_post b r b' → Wf b'.
Proof.
  intros Hb [Hr Hc Erl Elim Emax Ecrit Eacc Emode Eprot Eexp Eal Erlog
               Ealog Eidx].
  pose proof Hb as [Hrl Hlim Hal Hmode Hexp Hacc Hrlog Halog Hprot Hmax
                      Hcrit Hidx Hlen].
  assert (Hlen' : length (event_radiation_log b')
                  = length (event_radiation_log b)).
  { rewrite Erlog. destruct (trip b); [apply length_alter|reflexivity]. }
  pose proof Hmode as Hmode'. pose proof Hexp as Hexp'.
  pose proof Hacc as Hacc'. pose proof Hidx as Hidx'.
  rewrite sized_spec in Hmode', Hexp', Hacc', Hidx'.
  constructor.
  - rewrite Erl. now apply sized_set_val.
  - now rewrite Elim.
  - rewrite Eal. apply sized_set_val; [assumption|]. destruct (trip b); lia.
  - rewrite Emode. apply sized_set_val; [assumption|].
    repeat case_match; lia.
  - rewrite Eexp. apply sized_set_val; [assumption|].
    destruct (Z.eqb_spec (Signal.val (alert_mode b)) 0); lia.
  - rewrite Eacc. apply sized_set_val; [assumption|].
    destruct (Z.ltb_spec (Signal.val (accumulated_radiation b) + r) 65536);
      lia.
  - rewrite Erlog. destruct (trip b); [|assumption].
    apply Forall_alter; [assumption|].
    intros s _ Hs. now apply sized_set_val.
  - rewrite Ealog. destruct (trip b); [|assumption].
    apply Forall_alter; [assumption|].
    intros s _ Hs. apply sized_set_val; [assumption|lia].
  - rewrite Eprot. repeat case_match; auto using sized_set_val with lia.
  - congruence.
  - congruence.
  - rewrite Hlen', Eidx. destruct (trip b); [|assumption].
    apply sized_set_val; [assumption|]. apply Z.mod_pos_bound. lia.
  - rewrite Hlen', Ealog.
    destruct (trip b); [rewrite length_alter|]; assumption.
Qed.

Lemma tick_Wf_preserved b r b' : Wf b → tick b r = Ok b' → Wf b'.
Proof. eauto using tick_post_Wf, tick_inv. Qed.

Lemma run_Wf b rs b' : Wf b → run b rs = Ok b' → Wf b'.
Proof.
  revert b. induction rs as [|r rs IH]; intros b Hb; simpl.
  - now intros [= <-].
  - destruct (tick b r) as [b1|e] eqn:Ht; simpl; [|discriminate].
    intros Hrun. eapply IH; [|exact Hrun]. eauto using tick_Wf_preserved.
Qed.

Lemma bench_Wf : Wf bench.
Proof. apply representable_Wf. reflexivity. Qed.

(** What elaboration yields is representable, whatever the 8-bit limit and
    the common length of the two logs. *)
Lemma RadiationAlertSystem_representable rl lim al mode exp acc rlog alog
      prot b :
  sized 256 rl = true → sized 256 lim = true → sized 2 al = true →
  sized 4 mode = true → sized 16 exp = true → sized 65536 acc = true →
  Forall (λ s, sized 256 s = true) rlog →
  Forall (λ s, sized 4 s = true) alog →
  sized 2 prot = true → length alog = length rlog →
  RadiationAlertSystem rl lim al mode exp acc rlog alog prot = Ok b →
  representable b = true ∧ Signal.val (log_index b) = 0.
Proof.
  intros Hrl Hlim Hal Hmode Hexp Hacc Hrlog Halog Hprot Hlen.
  unfold RadiationAlertSystem, intbv.
  destruct (Z.leb_spec 0 0), (Z.ltb_spec 0 (Z.of_nat (length rlog)));
    simpl; try discriminate.
  intros [= <-]. split; [|reflexivity].
  apply representable_Wf. constructor; simpl; auto.
  apply sized_spec. simpl. lia.
Qed.

Lemma tick_raises b r :
  Wf b → 0 ≤ r < 256 →
  Signal.val (alert_mode b) ≠ 0 → Signal.val (exposure_time b) = 15 →
  tick b r = Raise ValueError.
Proof.
  intros Hb Hr Hm He. rewrite tick_Wf by assumption.
  destruct (Z.leb_spec 0 r), (Z.ltb_spec r 256); try lia.
  destruct (Z.eqb_spec (Signal.val (alert_mode b)) 0); [contradiction|].
  rewrite He. reflexivity.
Qed.

Lemma trip_true b :
  trip b = true ↔
  max_exposure_time b ≤ Signal.val (exposure_time b)
  ∨ 300 ≤ Signal.val (accumulated_radiation b).
Proof.
  unfold trip. rewrite orb_true_iff, !Z.geb_leb, !Z.leb_le. lia.
Qed.

Lemma trip_false b :
  trip b = false ↔
  Signal.val (exposure_time b) < max_exposure_time b
  ∧ Signal.val (accumulated_radiation b) < 300.
Proof.
  unfold trip. rewrite orb_false_iff, !Z.geb_leb, !Z.leb_gt. lia.
Qed.

(** ** Protection mode and classification *)

(** C1, as stated, fails: after a critical reading (200) a moderate one
    (120) leaves [protection_mode] at 1 while [alert_mode] becomes 1. *)
Lemma C1_counterexample :
  run bench [200] = Ok (after [200])
  ∧ tick (after [200]) 120 = Ok (after [200; 120])
  ∧ Signal.val (alert_mode (after [200; 120])) = 1
  ∧ Signal.val (protection_mode (after [200; 120])) = 1
  ∧ ¬ protection_coupled (after [200; 120]).
Proof.
  unfold protection_coupled. vm_compute. repeat split.
  intros [H _]. now specialize (H eq_refl).
Qed.

(** C1, amended: after every tick, [protection_mode] is 1 when the new
    [alert_mode] is 2 (critical), 0 when it is 0 (safe), and keeps its
    value of before the tick when the new [alert_mode] is 1 (moderate);
    the new mode is always one of the three. *)
Theorem C1_protection_mode b r b' :
  representable b = true → tick b r = Ok b' →
  (Signal.val (alert_mode b') = 2 → Signal.val (protection_mode b') = 1)
  ∧ (Signal.val (alert_mode b') = 0 → Signal.val (protection_mode b') = 0)
  ∧ (Signal.val (alert_mode b') = 1 → protection_mode b' = protection_mode b)
  ∧ (Signal.val (alert_mode b') = 0 ∨ Signal.val (alert_mode b') = 1
     ∨ Signal.val (alert_mode b') = 2).
Proof.
  intros Hb Ht. apply representable_Wf in Hb.
  destruct (tick_inv _ _ _ Hb Ht) as [_ _ _ _ _ _ _ Emode Eprot _ _ _ _ _].
  rewrite Emode, Eprot.
  destruct (r >? critical_limit b), (r >? Signal.val (limit b)); simpl;
    repeat split; auto; lia.
Qed.

Lemma C1_protection_mode_witness :
  representable (after [200]) = true
  ∧ tick (after [200]) 120 = Ok (after [200; 120])
  ∧ Signal.val (alert_mode (after [200; 120])) = 1
  ∧ protection_mode (after [200; 120]) = protection_mode (after [200]).
Proof.
  split; [vm_compute; reflexivity|]. split; [vm_compute; reflexivity|].
  split; [vm_compute; reflexivity|].
  apply (C1_protection_mode (after [200]) 120 (after [200; 120]));
    vm_compute; reflexivity.
Defined.



(** ** The trip test *)

(** C2, as stated, fails: on the second of two readings of 255 the new
    accumulator is 510, at least 300, and [alert] is still 0. *)
Lemma C2_counterexample :
  run bench [255] = Ok (after [255])
  ∧ tick (after [255]) 255 = Ok (after [255; 255])
  ∧ Signal.val (accumulated_radiation (after [255; 255])) = 510
  ∧ ¬ (Signal.val (alert (after [255; 255])) = 1
       ↔ 3 ≤ Signal.val (exposure_time (after [255; 255]))
         ∨ 300 ≤ Signal.val (accumulated_radiation (after [255; 255]))).
Proof.
  split; [vm_compute; reflexivity|]. split; [vm_compute; reflexivity|].
  split; [vm_compute; reflexivity|].
  replace (Signal.val (alert (after [255; 255]))) with 0
    by (vm_compute; reflexivity).
  replace (Signal.val (accumulated_radiation (after [255; 255]))) with 510
    by (vm_compute; reflexivity).
  intros [_ H]. assert (0 = 1) by (apply H; lia). lia.
Qed.

(** C2, amended: after every tick, [alert] is 1 iff the [exposure_time] of
    before the tick is at least [max_exposure_time] (3) or the
    [accumulated_radiation] of before the tick is at least 300; otherwise
    it is 0. *)
Theorem C2_trip_condition b r b' :
  representable b = true → tick b r = Ok b' →
  max_exposure_time b = 3
  ∧ (Signal.val (alert b') = 1
     ↔ max_exposure_time b ≤ Signal.val (exposure_time b)
       ∨ 300 ≤ Signal.val (accumulated_radiation b))
  ∧ (Signal.val (alert b') = 0 ∨ Signal.val (alert b') = 1).
Proof.
  intros Hb Ht. apply representable_Wf in Hb.
  destruct (tick_inv _ _ _ Hb Ht) as [_ _ _ _ _ _ _ _ _ _ Eal _ _ _].
  rewrite Eal, <- trip_true. split; [apply (wf_max_exposure_time _ Hb)|].
  destruct (trip b); simpl; intuition lia.
Qed.

Lemma C2_trip_condition_witness :
  representable (after [255; 255]) = true
  ∧ tick (after [255; 255]) 0 = Ok (after [255; 255; 0])
  ∧ Signal.val (alert (after [255; 255; 0])) = 1.
Proof.
  split; [vm_compute; reflexivity|]. split; [vm_compute; reflexivity|].
  apply (C2_trip_condition (after [255; 255]) 0 (after [255; 255; 0]));
    [vm_compute; reflexivity|vm_compute; reflexivity|].
  right. vm_compute. discriminate.
Defined.

(** ** The exposure counter *)

(** C3, as stated, fails: the first reading of 200 makes the new
    [alert_mode] 2 (not safe), and [exposure_time] stays 0 instead of
    becoming 1. *)
Lemma C3_counterexample :
  tick bench 200 = Ok (after [200])
  ∧ Signal.val (alert_mode (after [200])) ≠ 0
  ∧ Signal.val (exposure_time (after [200]))
    ≠ Signal.val (exposure_time bench) + 1.
Proof. vm_compute. repeat split; discriminate. Qed.

(** C3, amended: on a representable state and an 8-bit reading, if the
    [alert_mode] of before the tick is not 0 (safe) and [exposure_time] is
    below 15, the tick succeeds and the new [exposure_time] is the old one
    plus 1; if the [alert_mode] of before the tick is 0, the tick succeeds
    and the new [exposure_time] is 0. *)
Theorem C3_exposure_time b r :
  representable b = true → 0 ≤ r < 256 →
  (Signal.val (alert_mode b) ≠ 0 → Signal.val (exposure_time b) < 15 →
   ∃ b', tick b r = Ok b'
         ∧ Signal.val (exposure_time b') = Signal.val (exposure_time b) + 1)
  ∧ (Signal.val (alert_mode b) = 0 →
     ∃ b', tick b r = Ok b' ∧ Signal.val (exposure_time b') = 0).
Proof.
  intros Hb Hr. apply representable_Wf in Hb. split.
  - intros Hm He. destruct (tick_total b r) as [b' Ht]; auto.
    exists b'. split; [assumption|].
    destruct (tick_inv _ _ _ Hb Ht) as [_ _ _ _ _ _ _ _ _ Eexp _ _ _ _].
    rewrite Eexp. simpl.
    now destruct (Z.eqb_spec (Signal.val (alert_mode b)) 0).
  - intros Hm. destruct (tick_total b r) as [b' Ht]; auto.
    exists b'. split; [assumption|].
    destruct (tick_inv _ _ _ Hb Ht) as [_ _ _ _ _ _ _ _ _ Eexp _ _ _ _].
    rewrite Eexp, Hm. reflexivity.
Qed.

Lemma C3_exposure_time_witness :
  representable (after [120]) = true
  ∧ Signal.val (alert_mode (after [120])) ≠ 0
  ∧ Signal.val (exposure_time (after [120])) < 15
  ∧ ∃ b', tick (after [120]) 120 = Ok b'
          ∧ Signal.val (exposure_time b')
            = Signal.val (exposure_time (after [120])) + 1.
Proof.
  split; [vm_compute; reflexivity|].
  split; [vm_compute; discriminate|]. split; [vm_compute; reflexivity|].
  apply (C3_exposure_time (after [120]) 120);
    [vm_compute; reflexivity|lia|vm_compute; discriminate
    |vm_compute; reflexivity].
Defined.

(** C6: the tick is not total.  Sixteen readings of 120 from the initial
    state of the test bench lead to a representable state with
    [alert_mode = 1] and [exposure_time = 15]; on the next reading line 40
    assigns 16 to the 4-bit [exposure_time] and [ValueError] is raised. *)
Theorem C6_exposure_overflow_raises :
  run bench (replicate 16 120) = Ok (after (replicate 16 120))
  ∧ representable (after (replicate 16 120)) = true
  ∧ Signal.val (alert_mode (after (replicate 16 120))) = 1
  ∧ Signal.val (exposure_time (after (replicate 16 120))) = 15
  ∧ tick (after (replicate 16 120)) 120 = Raise ValueError
  ∧ run bench (replicate 17 120) = Raise ValueError.
Proof. vm_compute. repeat split. Qed.

(** ** The accumulator *)

Lemma tick_accumulated b r b' :
  Wf b → tick b r = Ok b' →
  Signal.val (accumulated_radiation b)
  ≤ Signal.val (accumulated_radiation b')
  ∧ Signal.val (accumulated_radiation b')
    = Z.min (Signal.val (accumulated_radiation b) + r) 65535.
Proof.
  intros Hb Ht.
  destruct (tick_inv _ _ _ Hb Ht) as [Hr _ _ _ _ _ Eacc _ _ _ _ _ _ _].
  apply wf_accumulated_radiation, sized_spec in Hb.
  rewrite Eacc. simpl.
  destruct (Z.ltb_spec (Signal.val (accumulated_radiation b) + r) 65536);
    lia.
Qed.

Lemma run_accumulated b rs b' :
  Wf b → run b rs = Ok b' →
  Signal.val (accumulated_radiation b)
  ≤ Signal.val (accumulated_radiation b').
Proof.
  revert b. induction rs as [|r rs IH]; intros b Hb; simpl.
  - intros [= <-]. lia.
  - destruct (tick b r) as [b1|] eqn:Ht; simpl; [|discriminate].
    intros Hrun. apply IH in Hrun; [|eauto using tick_Wf_preserved].
    pose proof (tick_accumulated _ _ _ Hb Ht). lia.
Qed.

(** C5, as stated, fails: the accumulator reaches 65535, which exceeds
    [max_value - 1 = 65534]. *)
Lemma C5_counterexample :
  run bench saturating_readings = Ok (after saturating_readings)
  ∧ ¬ Signal.val (accumulated_radiation (after saturating_readings))
      ≤ 65535 - 1.
Proof. vm_compute. split; [reflexivity|]. intros H. now apply H. Qed.

(** C5, amended: along every run from the initial state of the test bench
    the accumulator is non-decreasing and never exceeds 65535, the largest
    value of its 16-bit field ([accumulated_radiation.max] is the exclusive
    bound 65536); a tick sets it to the sum with the reading, or to 65535
    when the sum would pass 65535. *)
Theorem C5_accumulated_radiation rs1 rs2 b1 b2 :
  run bench rs1 = Ok b1 → run b1 rs2 = Ok b2 →
  0 ≤ Signal.val (accumulated_radiation b1)
  ∧ Signal.val (accumulated_radiation b1)
    ≤ Signal.val (accumulated_radiation b2)
  ∧ Signal.val (accumulated_radiation b2) ≤ 65535
  ∧ ∀ r b', tick b2 r = Ok b' →
            Signal.val (accumulated_radiation b')
            = Z.min (Signal.val (accumulated_radiation b2) + r) 65535.
Proof.
  intros H1 H2.
  pose proof (run_Wf _ _ _ bench_Wf H1) as Hb1.
  pose proof (run_Wf _ _ _ Hb1 H2) as Hb2.
  pose proof (run_accumulated _ _ _ Hb1 H2).
  pose proof (wf_accumulated_radiation _ Hb1) as Ha1.
  pose proof (wf_accumulated_radiation _ Hb2) as Ha2.
  rewrite sized_spec in Ha1, Ha2.
  repeat split; try lia.
  intros r b' Ht. now apply tick_accumulated.
Qed.

Lemma C5_accumulated_radiation_witness :
  run bench [45; 75] = Ok (after [45; 75])
  ∧ run (after [45; 75]) [150; 90] = Ok (after [45; 75; 150; 90])
  ∧ Signal.val (accumulated_radiation (after [45; 75]))
    ≤ Signal.val (accumulated_radiation (after [45; 75; 150; 90])).
Proof.
  split; [vm_compute; reflexivity|]. split; [vm_compute; reflexivity|].
  apply (C5_accumulated_radiation [45; 75] [150; 90]);
    vm_compute; reflexivity.
Defined.

(** ** The scenario of the test bench *)

(** C8, as stated, fails: the third reading, 150, does not exceed
    [critical_limit = 150], so the third mode is 1 (moderate), not 2. *)
Lemma C8_counterexample :
  map (λ b, Signal.val (alert_mode b)) (trace bench (take 5 radiation_levels))
  ≠ [0; 0; 2; 0; 2].
Proof. vm_compute. discriminate. Qed.

(** C8, amended: from the initial state of the test bench the readings
    45, 75, 150, 90, 200 give the modes safe, safe, moderate, safe,
    critical, protection off on the first four ticks and on at the fifth,
    [alert] 0 on the first four ticks and 1 at the fifth, an accumulator of
    560, and exactly one log record, written at index 0 with reading 200
    and with the mode of before the fifth tick (0); [log_index] ends at 1. *)
Theorem C8_scenario :
  let readings := take 5 radiation_levels in
  readings = [45; 75; 150; 90; 200]
  ∧ representable bench = true
  ∧ run bench readings = Ok (after readings)
  ∧ map (λ b, Signal.val (alert_mode b)) (trace bench readings)
    = [0; 0; 1; 0; 2]
  ∧ map (λ b, Signal.val (protection_mode b)) (trace bench readings)
    = [0; 0; 0; 0; 1]
  ∧ map (λ b, Signal.val (alert b)) (trace bench readings) = [0; 0; 0; 0; 1]
  ∧ Signal.val (accumulated_radiation (after readings)) = 560
  ∧ log_entries bench readings = [(200, 0)]
  ∧ log_record (after readings) 0 = Some (200, 0)
  ∧ map Signal.val (event_radiation_log (after readings))
    = 200 :: replicate 9 0
  ∧ map Signal.val (event_alert_log (after readings)) = replicate 10 0
  ∧ Signal.val (log_index (after readings)) = 1.
Proof. vm_compute. repeat split. Qed.

(** ** Ticks that do not trip *)

Lemma tick_dose_bound b r b' :
  Wf b → tick b r = Ok b' → dose_bound b → dose_bound b'.
Proof.
  intros Hb Ht [Hl Hd].
  destruct (tick_inv _ _ _ Hb Ht)
    as [Hr _ _ Elim _ _ Eacc Emode _ Eexp _ _ _ _].
  pose proof (wf_critical_limit _ Hb) as Hc.
  pose proof (wf_exposure_time _ Hb) as He.
  pose proof (wf_accumulated_radiation _ Hb) as Ha.
  rewrite sized_spec in He, Ha.
  unfold dose_bound. rewrite Elim, Eacc, Emode, Eexp. simpl.
  split; [assumption|]. rewrite Hc, Hl, !Z.gtb_ltb.
  destruct (Z.ltb_spec (Signal.val (accumulated_radiation b) + r) 65536),
    (Z.ltb_spec (100 + 50) r), (Z.ltb_spec 100 r),
    (Z.eqb_spec (Signal.val (alert_mode b)) 0); simpl; lia.
Qed.

Lemma run_dose_bound b rs b' :
  Wf b → run b rs = Ok b' → dose_bound b → dose_bound b'.
Proof.
  revert b. induction rs as [|r rs IH]; intros b Hb; simpl.
  - now intros [= <-].
  - destruct (tick b r) as [b1|] eqn:Ht; simpl; [|discriminate].
    intros Hrun Hd. apply (IH b1); [| assumption |];
      eauto using tick_Wf_preserved, tick_dose_bound.
Qed.

Lemma bench_dose_bound : dose_bound bench.
Proof. split; vm_compute; [reflexivity|discriminate]. Qed.

(** In the states the test bench can reach, a trip condition that is false
    on the values of after a tick was false on the values of before it. *)
Lemma bench_no_trip_after_no_trip_before rs b r b' :
  run bench rs = Ok b → tick b r = Ok b' → trip b' = false →
  trip b = false.
Proof.
  intros Hrs Ht Hpost.
  pose proof (run_Wf _ _ _ bench_Wf Hrs) as Hb.
  pose proof (run_dose_bound _ _ _ bench_Wf Hrs bench_dose_bound) as [_ Hd].
  pose proof (tick_accumulated _ _ _ Hb Ht) as [Hle _].
  destruct (tick_inv _ _ _ Hb Ht) as [_ _ _ _ Emax _ _ _ _ _ _ _ _ _].
  apply trip_false in Hpost. apply trip_false.
  rewrite Emax in Hpost. rewrite (wf_max_exposure_time _ Hb) in *.
  pose proof (wf_exposure_time _ Hb) as He. rewrite sized_spec in He.
  destruct (Signal.val (alert_mode b) =? 0); lia.
Qed.

(** C9, as stated, fails: with the trip condition read on the values of
    after the tick, as the claim's context defines it.  The block is
    elaborated with [limit = 10]; after the readings 11, 11, 11, 11, 0 it
    holds [exposure_time = 4], [alert_mode = 0] and an accumulator of 44.
    On the next reading, 0, the new [exposure_time] is 0 and the new
    accumulator 44, so the condition is false on the new values; yet
    line 44 saw [exposure_time = 4], [alert] is 1 and a record is written:
    the cursor moves from 1 to 2. *)
Lemma C9_counterexample :
  run low_limit_bench [11; 11; 11; 11; 0]
  = Ok (after_low [11; 11; 11; 11; 0])
  ∧ representable (after_low [11; 11; 11; 11; 0]) = true
  ∧ tick (after_low [11; 11; 11; 11; 0]) 0
    = Ok (after_low [11; 11; 11; 11; 0; 0])
  ∧ Signal.val (exposure_time (after_low [11; 11; 11; 11; 0; 0])) = 0
  ∧ Signal.val (accumulated_radiation (after_low [11; 11; 11; 11; 0; 0]))
    = 44
  ∧ trip (after_low [11; 11; 11; 11; 0; 0]) = false
  ∧ Signal.val (alert (after_low [11; 11; 11; 11; 0; 0])) = 1
  ∧ Signal.val (log_index (after_low [11; 11; 11; 11; 0])) = 1
  ∧ Signal.val (log_index (after_low [11; 11; 11; 11; 0; 0])) = 2
  ∧ ¬ (Signal.val (alert (after_low [11; 11; 11; 11; 0; 0])) = 0
       ∧ event_radiation_log (after_low [11; 11; 11; 11; 0; 0])
         = event_radiation_log (after_low [11; 11; 11; 11; 0])
       ∧ event_alert_log (after_low [11; 11; 11; 11; 0; 0])
         = event_alert_log (after_low [11; 11; 11; 11; 0])
       ∧ log_index (after_low [11; 11; 11; 11; 0; 0])
         = log_index (after_low [11; 11; 11; 11; 0])).
Proof.
  vm_compute. repeat split. intros [H _]. discriminate H.
Qed.

(** C9, amended: on every tick on which the condition of line 44,
    evaluated on the values of before the tick, does not hold, the new
    [alert] is 0 and both logs and [log_index] are exactly as before the
    tick. *)
Theorem C9_no_trip_frame b r b' :
  representable b = true → tick b r = Ok b' → trip b = false →
  Signal.val (alert b') = 0
  ∧ event_radiation_log b' = event_radiation_log b
  ∧ event_alert_log b' = event_alert_log b
  ∧ log_index b' = log_index b.
Proof.
  intros Hb Ht Hpre. apply representable_Wf in Hb.
  destruct (tick_inv _ _ _ Hb Ht) as [_ _ _ _ _ _ _ _ _ _ Eal Erl Ealog Eidx].
  rewrite Eal, Erl, Ealog, Eidx, Hpre. repeat split.
Qed.

Lemma C9_no_trip_frame_witness :
  representable (after [45; 75]) = true
  ∧ tick (after [45; 75]) 150 = Ok (after [45; 75; 150])
  ∧ trip (after [45; 75]) = false
  ∧ Signal.val (alert (after [45; 75; 150])) = 0
  ∧ event_radiation_log (after [45; 75; 150])
    = event_radiation_log (after [45; 75])
  ∧ event_alert_log (after [45; 75; 150]) = event_alert_log (after [45; 75])
  ∧ log_index (after [45; 75; 150]) = log_index (after [45; 75]).
Proof.
  split; [vm_compute; reflexivity|]. split; [vm_compute; reflexivity|].
  split; [vm_compute; reflexivity|].
  apply (C9_no_trip_frame (after [45; 75]) 150 (after [45; 75; 150]));
    vm_compute; reflexivity.
Defined.

(** ** The circular log *)

Lemma mod_apart (C j n : nat) :
  (j < n)%nat → (n < j + C)%nat → (j mod C)%nat ≠ (n mod C)%nat.
Proof.
  intros Hj Hn Heq.
  assert (HC : C ≠ 0%nat) by lia.
  pose proof (Nat.div_mod_eq j C). pose proof (Nat.div_mod_eq n C).
  assert ((j `div` C < n `div` C)%nat ∨ (n `div` C ≤ j `div` C)%nat)
    as [Hd|Hd] by lia; nia.
Qed.

Lemma to_nat_succ_mod (idx : Z) (C : nat) :
  0 ≤ idx →
  Z.to_nat ((idx + 1) mod Z.of_nat C) = ((Z.to_nat idx + 1) mod C)%nat.
Proof.
  intros Hidx.
  replace (idx + 1) with (Z.of_nat (Z.to_nat idx + 1)) by lia.
  rewrite <- Nat2Z.inj_mod. apply Nat2Z.id.
Qed.

Lemma log_record_alter b b' i r m :
  (i < length (event_radiation_log b))%nat →
  length (event_alert_log b) = length (event_radiation_log b) →
  event_radiation_log b' = alter (set_val r) i (event_radiation_log b) →
  event_alert_log b' = alter (set_val m) i (event_alert_log b) →
  log_record b' i = Some (r, m)
  ∧ ∀ j, j ≠ i → log_record b' j = log_record b j.
Proof.
  intros Hi Hlen E1 E2. unfold log_record. rewrite E1, E2. split.
  - rewrite !list_lookup_alter_eq.
    destruct (lookup_lt_is_Some_2 (event_radiation_log b) i) as [s1 ->];
      [lia|].
    destruct (lookup_lt_is_Some_2 (event_alert_log b) i) as [s2 ->];
      [lia|].
    reflexivity.
  - intros j Hj. now rewrite !list_lookup_alter_ne by auto.
Qed.

Lemma tick_ring b r b' hs :
  Wf b → tick b r = Ok b' → ring b hs →
  ring b' (hs ++ if trip b then [(r, Signal.val (alert_mode b))] else []).
Proof.
  intros Hb Ht [Hidx Hrec].
  destruct (tick_inv _ _ _ Hb Ht) as [_ _ _ _ _ _ _ _ _ _ _ Erl Eal Eidx].
  pose proof (wf_log_index _ Hb) as Hi. apply sized_spec in Hi.
  pose proof (wf_length _ Hb) as Hlen.
  unfold ring. destruct (trip b).
  - assert (HC : length (event_radiation_log b') = length (event_radiation_log b))
      by (rewrite Erl; apply length_alter).
    destruct (log_record_alter b b' (Z.to_nat (Signal.val (log_index b)))
                r (Signal.val (alert_mode b))) as [Hnew Hold];
      [lia|assumption..|].
    rewrite HC, Eidx, length_app. simpl length. split.
    + simpl. rewrite to_nat_succ_mod, Hidx by lia.
      apply Nat.Div0.add_mod_idemp_l.
    + intros j Hj Hwin.
      destruct (decide (j = length hs)) as [->|Hne].
      * rewrite <- Hidx, Hnew.
        now rewrite lookup_app_r, Nat.sub_diag by lia.
      * rewrite Hold, Hrec, lookup_app_l by
          (try rewrite Hidx; try apply mod_apart; lia).
        reflexivity.
  - rewrite app_nil_r. unfold log_record. now rewrite Erl, Eal, Eidx.
Qed.

Lemma run_ring b rs b' hs :
  Wf b → run b rs = Ok b' → ring b hs → ring b' (hs ++ log_entries b rs).
Proof.
  revert b hs. induction rs as [|r rs IH]; intros b hs Hb; simpl.
  - intros [= <-]. now rewrite app_nil_r.
  - destruct (tick b r) as [b1|] eqn:Ht; simpl; [|discriminate].
    intros Hrun Hring. rewrite app_assoc.
    apply IH; eauto using tick_Wf_preserved, tick_ring.
Qed.

Lemma run_capacity b rs b' :
  Wf b → run b rs = Ok b' →
  length (event_radiation_log b') = length (event_radiation_log b).
Proof.
  revert b. induction rs as [|r rs IH]; intros b Hb; simpl.
  - now intros [= <-].
  - destruct (tick b r) as [b1|] eqn:Ht; simpl; [|discriminate].
    intros Hrun. rewrite (IH b1) by eauto using tick_Wf_preserved.
    destruct (tick_inv _ _ _ Hb Ht) as [_ _ _ _ _ _ _ _ _ _ _ Erl _ _].
    rewrite Erl. destruct (trip b); [apply length_alter|reflexivity].
Qed.

(** C4, as stated, fails: the fifth tick of the scenario trips and writes
    at index 0 the reading 200 with the mode of before the tick (0), not
    the mode computed on that tick (2). *)
Lemma C4_counterexample :
  tick (after [45; 75; 150; 90]) 200 = Ok (after [45; 75; 150; 90; 200])
  ∧ trip (after [45; 75; 150; 90]) = true
  ∧ Signal.val (log_index (after [45; 75; 150; 90])) = 0
  ∧ log_record (after [45; 75; 150; 90; 200]) 0
    ≠ Some (200, Signal.val (alert_mode (after [45; 75; 150; 90; 200]))).
Proof. vm_compute. repeat split. discriminate. Qed.

(** C4, amended: on every tick on which the condition of line 44 holds (on
    the values of before the tick), the record made of the reading and of
    the [alert_mode] of before the tick is written at position
    [log_index], every other position is unchanged, and [log_index]
    becomes [(log_index + 1) mod capacity].  Consequently, along a run that
    starts with [log_index = 0] and writes [capacity + k] records with
    [k < capacity], the cursor ends at [k], positions below [k] hold the
    records number [capacity + i] and the positions from [k] on hold the
    records number [i]: the last [capacity] records, in circular order. *)
Theorem C4_log_wraparound :
  (∀ b r b',
     representable b = true → tick b r = Ok b' → trip b = true →
     log_record b' (Z.to_nat (Signal.val (log_index b)))
     = Some (r, Signal.val (alert_mode b))
     ∧ (∀ i, i ≠ Z.to_nat (Signal.val (log_index b)) →
             log_record b' i = log_record b i)
     ∧ Signal.val (log_index b')
       = (Signal.val (log_index b) + 1)
           mod Z.of_nat (length (event_radiation_log b)))
  ∧ (∀ b rs b' (k : nat),
       representable b = true → Signal.val (log_index b) = 0 →
       run b rs = Ok b' →
       (k < length (event_radiation_log b))%nat →
       length (log_entries b rs)
       = (length (event_radiation_log b) + k)%nat →
       Signal.val (log_index b') = Z.of_nat k
       ∧ ∀ i, (i < length (event_radiation_log b))%nat →
              log_record b' i
              = log_entries b rs
                  !! (if (i <? k)%nat
                      then (length (event_radiation_log b) + i)%nat
                      else i)).
Proof.
  split.
  - intros b r b' Hb Ht Htrip. apply representable_Wf in Hb.
    destruct (tick_inv _ _ _ Hb Ht) as [_ _ _ _ _ _ _ _ _ _ _ Erl Eal Eidx].
    rewrite Htrip in Erl, Eal, Eidx.
    pose proof (wf_log_index _ Hb) as Hi. apply sized_spec in Hi.
    destruct (log_record_alter b b' (Z.to_nat (Signal.val (log_index b)))
                r (Signal.val (alert_mode b))) as [Hnew Hold];
      [lia|apply (wf_length _ Hb)|assumption..|].
    rewrite Eidx. auto.
  - intros b rs b' k Hb Hidx Hrun Hk Hlen. apply representable_Wf in Hb.
    assert (Hring : ring b []).
    { split; [rewrite Hidx; simpl; now rewrite Nat.Div0.mod_0_l|].
      simpl. lia. }
    pose proof (run_ring _ _ _ _ Hb Hrun Hring) as [Hcur Hrec].
    pose proof (run_Wf _ _ _ Hb Hrun) as Hb'.
    pose proof (wf_log_index _ Hb') as Hi. apply sized_spec in Hi.
    rewrite (run_capacity _ _ _ Hb Hrun) in *. simpl app in *.
    set (C := length (event_radiation_log b)) in *.
    assert (Hmod : ((C + k) mod C = k)%nat).
    { rewrite <- Nat.Div0.add_mod_idemp_l, Nat.Div0.mod_same.
      apply Nat.mod_small. lia. }
    rewrite Hlen, Hmod in Hcur. split; [lia|].
    intros i Hi'. destruct (Nat.ltb_spec i k) as [Hik|Hik].
    + rewrite <- Hrec by lia. f_equal.
      rewrite <- Nat.Div0.add_mod_idemp_l, Nat.Div0.mod_same.
      symmetry. apply Nat.mod_small. lia.
    + rewrite <- Hrec by lia. f_equal. symmetry. apply Nat.mod_small. lia.
Qed.

Lemma C4_log_wraparound_witness :
  representable bench = true
  ∧ Signal.val (log_index bench) = 0
  ∧ run bench wrapping_readings = Ok (after wrapping_readings)
  ∧ (2 < length (event_radiation_log bench))%nat
  ∧ length (log_entries bench wrapping_readings)
    = (length (event_radiation_log bench) + 2)%nat
  ∧ Signal.val (log_index (after wrapping_readings)) = Z.of_nat 2
  ∧ representable (after [255; 255]) = true
  ∧ tick (after [255; 255]) 1 = Ok (after [255; 255; 1])
  ∧ trip (after [255; 255]) = true
  ∧ log_record (after [255; 255; 1])
      (Z.to_nat (Signal.val (log_index (after [255; 255]))))
    = Some (1, Signal.val (alert_mode (after [255; 255]))).
Proof.
  assert (H1 : representable bench = true) by (vm_compute; reflexivity).
  assert (H2 : Signal.val (log_index bench) = 0) by (vm_compute; reflexivity).
  assert (H3 : run bench wrapping_readings = Ok (after wrapping_readings))
    by (vm_compute; reflexivity).
  assert (H4 : (2 < length (event_radiation_log bench))%nat)
    by (vm_compute; lia).
  assert (H5 : length (log_entries bench wrapping_readings)
               = (length (event_radiation_log bench) + 2)%nat)
    by (vm_compute; reflexivity).
  assert (H6 : representable (after [255; 255]) = true)
    by (vm_compute; reflexivity).
  assert (H7 : tick (after [255; 255]) 1 = Ok (after [255; 255; 1]))
    by (vm_compute; reflexivity).
  assert (H8 : trip (after [255; 255]) = true) by (vm_compute; reflexivity).
  repeat (split; [assumption|]).
  split.
  - apply (proj2 C4_log_wraparound bench wrapping_readings
             (after wrapping_readings) 2%nat H1 H2 H3 H4 H5).
  - repeat (split; [assumption|]).
    apply (proj1 C4_log_wraparound (after [255; 255]) 1
             (after [255; 255; 1]) H6 H7 H8).
Defined.

(** ** The two logs in lockstep *)

Lemma pending_radiation_log b i v :
  Next (t_event_radiation_log i) v ∈ pending b ↔
  trip b = true ∧ i = Z.to_nat (Signal.val (log_index b))
  ∧ v = Signal.val (radiation_level b).
Proof.
  unfold pending. rewrite !elem_of_app.
  repeat case_match; rewrite ?elem_of_cons, ?elem_of_nil;
    intuition congruence.
Qed.

Lemma pending_alert_log b i v :
  Next (t_event_alert_log i) v ∈ pending b ↔
  trip b = true ∧ i = Z.to_nat (Signal.val (log_index b))
  ∧ v = Signal.val (alert_mode b).
Proof.
  unfold pending. rewrite !elem_of_app.
  repeat case_match; rewrite ?elem_of_cons, ?elem_of_nil;
    intuition congruence.
Qed.

Lemma elem_of_written tg w : tg ∈ written w ↔ ∃ v, Next tg v ∈ w.
Proof.
  unfold written. rewrite list_elem_of_fmap. split.
  - intros [[tg' v] [-> H]]. eauto.
  - intros [v H]. exists (Next tg v). auto.
Qed.

Lemma activate_pending b w :
  Wf b → activate b = Ok w → w = pending b.
Proof.
  intros Hb. rewrite activate_Wf by assumption.
  destruct (_ && _); [discriminate|]. now intros [= <-].
Qed.

Lemma tick_decompose b r b' :
  Wf b → tick b r = Ok b' →
  0 ≤ r < 256
  ∧ drive b r = Ok (update b [Next t_radiation_level r])
  ∧ activate (update b [Next t_radiation_level r])
    = Ok (pending (update b [Next t_radiation_level r]))
  ∧ b' = update (update b [Next t_radiation_level r])
           (pending (update b [Next t_radiation_level r])).
Proof.
  intros Hb Ht. pose proof (tick_inv _ _ _ Hb Ht) as [Hr Hc].
  rewrite tick_Wf in Ht by assumption.
  rewrite drive_Wf, activate_Wf by auto using Wf_driven.
  destruct (Z.leb_spec 0 r), (Z.ltb_spec r 256); try lia. simpl in *.
  destruct (negb (Signal.val (alert_mode b) =? 0)
            && (Signal.val (exposure_time b) =? 15)); [discriminate|].
  injection Ht as <-. auto.
Qed.

Lemma tick_log_record b r b' i :
  Wf b → tick b r = Ok b' →
  log_record b' i =
    if trip b && bool_decide (i = Z.to_nat (Signal.val (log_index b)))
    then Some (r, Signal.val (alert_mode b))
    else log_record b i.
Proof.
  intros Hb Ht.
  destruct (tick_inv _ _ _ Hb Ht) as [_ _ _ _ _ _ _ _ _ _ _ Erl Eal _].
  pose proof (wf_log_index _ Hb) as Hi. apply sized_spec in Hi.
  destruct (trip b); simpl.
  - destruct (log_record_alter b b' (Z.to_nat (Signal.val (log_index b)))
                r (Signal.val (alert_mode b))) as [Hnew Hold];
      [lia|apply (wf_length _ Hb)|assumption..|].
    case_bool_decide; subst; auto.
  - unfold log_record. now rewrite Erl, Eal.
Qed.

Lemma writes_cons b r rs b' :
  Wf b → tick b r = Ok b' →
  writes b (r :: rs)
  = pending (update b [Next t_radiation_level r]) :: writes b' rs.
Proof.
  intros Hb Ht.
  destruct (tick_decompose _ _ _ Hb Ht) as (_ & Hd & Ha & ->).
  simpl. now rewrite Hd, Ha.
Qed.

Lemma run_last_write b rs b' i :
  Wf b → run b rs = Ok b' →
  last_write (t_event_radiation_log i) (writes b rs)
  = last_write (t_event_alert_log i) (writes b rs)
  ∧ match last_write (t_event_radiation_log i) (writes b rs) with
    | Some t =>
        ∃ w v1 v2,
          writes b rs !! t = Some w
          ∧ Next (t_event_radiation_log i) v1 ∈ w
          ∧ Next (t_event_alert_log i) v2 ∈ w
          ∧ log_record b' i = Some (v1, v2)
    | None => log_record b' i = log_record b i
    end.
Proof.
  revert b. induction rs as [|r rs IH]; intros b Hb.
  - simpl. intros [= <-]. auto.
  - cbn [run]. destruct (tick b r) as [b1|] eqn:Ht; [|discriminate].
    cbn [mbind result_bind]. intros Hrun.
    pose proof (tick_Wf_preserved _ _ _ Hb Ht) as Hb1.
    destruct (IH _ Hb1 Hrun) as [Heq Hrec].
    rewrite (writes_cons _ _ _ _ Hb Ht). cbn [last_write].
    rewrite <- Heq.
    set (b0 := update b [Next t_radiation_level r]).
    assert (Hin : ∀ tg, tg ∈ written (pending b0) ↔ ∃ v, Next tg v ∈ pending b0)
      by (intros; apply elem_of_written).
    assert (Hlock : bool_decide
                      (t_event_radiation_log i ∈ written (pending b0))
                    = bool_decide
                        (t_event_alert_log i ∈ written (pending b0))).
    { apply bool_decide_ext. rewrite !Hin. split; intros [v Hv].
      - apply pending_radiation_log in Hv as (? & ? & _).
        eexists. apply pending_alert_log. eauto.
      - apply pending_alert_log in Hv as (? & ? & _).
        eexists. apply pending_radiation_log. eauto. }
    rewrite <- Hlock. split; [reflexivity|].
    destruct (last_write (t_event_radiation_log i) (writes b1 rs)) as [t|].
    + destruct Hrec as (w & v1 & v2 & Hw & H1 & H2 & Hr).
      exists w, v1, v2. auto.
    + rewrite Hrec, (tick_log_record _ _ _ i Hb Ht).
      destruct (bool_decide_reflect
                  (t_event_radiation_log i ∈ written (pending b0)))
        as [Hw|Hw].
      * apply Hin in Hw as [v Hv].
        pose proof Hv as Hv'.
        apply pending_radiation_log in Hv' as (Htrip & -> & ->).
        exists (pending b0), (Signal.val (radiation_level b0)),
          (Signal.val (alert_mode b0)).
        split; [reflexivity|]. split; [assumption|].
        split; [apply pending_alert_log; auto|].
        change (trip b0) with (trip b) in Htrip. rewrite Htrip.
        now rewrite bool_decide_true by reflexivity.
      * destruct (trip b) eqn:Htrip; [|reflexivity]. simpl.
        destruct (bool_decide_reflect
                    (i = Z.to_nat (Signal.val (log_index b))))
          as [Hi|Hi]; [|reflexivity].
        exfalso. apply Hw, Hin. eexists.
        apply pending_radiation_log. eauto.
Qed.

Lemma tick_writes b r :
  Wf b → 0 ≤ r < 256 →
  Signal.val (alert_mode b) = 0 ∨ Signal.val (exposure_time b) < 15 →
  ∃ b1 w,
    drive b r = Ok b1 ∧ activate b1 = Ok w ∧ tick b r = Ok (update b1 w)
    ∧ (trip b = true →
       Next (t_event_radiation_log (Z.to_nat (Signal.val (log_index b)))) r
         ∈ w
       ∧ Next (t_event_alert_log (Z.to_nat (Signal.val (log_index b))))
           (Signal.val (alert_mode b)) ∈ w
       ∧ log_record (update b1 w) (Z.to_nat (Signal.val (log_index b)))
         = Some (r, Signal.val (alert_mode b)))
    ∧ (trip b = false →
       ∀ i, (t_event_radiation_log i ∉ written w)
            ∧ (t_event_alert_log i ∉ written w)).
Proof.
  intros Hb Hr Hc. destruct (tick_total b r Hb Hr Hc) as [b' Ht].
  destruct (tick_decompose _ _ _ Hb Ht) as (_ & Hd & Ha & Hb').
  set (b1 := update b [Next t_radiation_level r]) in *.
  exists b1, (pending b1). rewrite <- Hb'.
  split; [assumption|]. split; [assumption|]. split; [assumption|].
  split.
  - intros Htrip. split; [|split].
    + apply pending_radiation_log. auto.
    + apply pending_alert_log. auto.
    + rewrite (tick_log_record _ _ _ _ Hb Ht), Htrip.
      now rewrite bool_decide_true by reflexivity.
  - intros Htrip i. rewrite !elem_of_written. split; intros [v Hv].
    + apply pending_radiation_log in Hv as (Hv & _).
      change (trip b1) with (trip b) in Hv. congruence.
    + apply pending_alert_log in Hv as (Hv & _).
      change (trip b1) with (trip b) in Hv. congruence.
Qed.

(** C10: the two logs stay in lockstep.  On a representable state, with an
    8-bit reading and the exposure counter able to step, the tick succeeds;
    when the condition of line 44 holds its activation assigns the reading
    to [event_radiation_log] and the current mode to [event_alert_log],
    both at the current [log_index], and the record held there afterwards
    is that pair; when the condition does not hold it assigns neither log
    at any position.  An activation assigns position [i] of one log iff it
    assigns position [i] of the other, and it does so iff the condition
    holds and [i] is the current [log_index].  Consequently, along every
    run, the last tick that wrote [event_radiation_log[i]] is the last
    tick that wrote [event_alert_log[i]], and the two entries held at [i]
    afterwards are the two values that tick assigned; a position never
    written keeps its record. *)
Theorem C10_logs_lockstep :
  (∀ b r,
     representable b = true → 0 ≤ r < 256 →
     Signal.val (alert_mode b) = 0 ∨ Signal.val (exposure_time b) < 15 →
     ∃ b1 w,
       drive b r = Ok b1 ∧ activate b1 = Ok w
       ∧ tick b r = Ok (update b1 w)
       ∧ (trip b = true →
          Next (t_event_radiation_log (Z.to_nat (Signal.val (log_index b))))
            r ∈ w
          ∧ Next (t_event_alert_log (Z.to_nat (Signal.val (log_index b))))
              (Signal.val (alert_mode b)) ∈ w
          ∧ log_record (update b1 w) (Z.to_nat (Signal.val (log_index b)))
            = Some (r, Signal.val (alert_mode b)))
       ∧ (trip b = false →
          ∀ i, (t_event_radiation_log i ∉ written w)
               ∧ (t_event_alert_log i ∉ written w)))
  ∧ (∀ b w i,
       representable b = true → activate b = Ok w →
       (t_event_radiation_log i ∈ written w
        ↔ t_event_alert_log i ∈ written w)
       ∧ (t_event_radiation_log i ∈ written w
          ↔ trip b = true ∧ i = Z.to_nat (Signal.val (log_index b))))
  ∧ (∀ b rs b' i,
       representable b = true → run b rs = Ok b' →
       last_write (t_event_radiation_log i) (writes b rs)
       = last_write (t_event_alert_log i) (writes b rs)
       ∧ match last_write (t_event_radiation_log i) (writes b rs) with
         | Some t =>
             ∃ w v1 v2,
               writes b rs !! t = Some w
               ∧ Next (t_event_radiation_log i) v1 ∈ w
               ∧ Next (t_event_alert_log i) v2 ∈ w
               ∧ log_record b' i = Some (v1, v2)
         | None => log_record b' i = log_record b i
         end).
Proof.
  split; [|split].
  - intros b r Hb Hr Hc. apply representable_Wf in Hb.
    now apply tick_writes.
  - intros b w i Hb Hw. apply representable_Wf in Hb.
    apply activate_pending in Hw; [subst w|assumption].
    rewrite !elem_of_written. repeat split.
    + intros [v Hv]. apply pending_radiation_log in Hv as (? & ? & _).
      eexists. apply pending_alert_log. eauto.
    + intros [v Hv]. apply pending_alert_log in Hv as (? & ? & _).
      eexists. apply pending_radiation_log. eauto.
    + destruct H as [v Hv]. now apply pending_radiation_log in Hv.
    + destruct H as [v Hv]. now apply pending_radiation_log in Hv.
    + intros [? ?]. eexists. apply pending_radiation_log. eauto.
  - intros b rs b' i Hb Hrun. apply representable_Wf in Hb.
    now apply run_last_write.
Qed.

(** A tick that trips, succeeds and writes both logs at index 0; and a run
    in which both logs were last written at index 0 by tick number 12. *)
Lemma C10_logs_lockstep_witness :
  representable (after [255; 255]) = true
  ∧ trip (after [255; 255]) = true
  ∧ (∃ b1 w,
       drive (after [255; 255]) 1 = Ok b1 ∧ activate b1 = Ok w
       ∧ tick (after [255; 255]) 1 = Ok (update b1 w)
       ∧ Next (t_event_radiation_log
                 (Z.to_nat (Signal.val (log_index (after [255; 255])))))
           1 ∈ w
       ∧ Next (t_event_alert_log
                 (Z.to_nat (Signal.val (log_index (after [255; 255])))))
           (Signal.val (alert_mode (after [255; 255]))) ∈ w
       ∧ log_record (update b1 w)
           (Z.to_nat (Signal.val (log_index (after [255; 255]))))
         = Some (1, Signal.val (alert_mode (after [255; 255]))))
  ∧ run bench wrapping_readings = Ok (after wrapping_readings)
  ∧ last_write (t_event_radiation_log 0) (writes bench wrapping_readings)
    = Some 12%nat
  ∧ last_write (t_event_alert_log 0) (writes bench wrapping_readings)
    = last_write (t_event_radiation_log 0) (writes bench wrapping_readings).
Proof.
  assert (H1 : representable (after [255; 255]) = true)
    by (vm_compute; reflexivity).
  assert (H2 : trip (after [255; 255]) = true) by (vm_compute; reflexivity).
  assert (H3 : 0 ≤ 1 < 256) by lia.
  assert (H4 : Signal.val (alert_mode (after [255; 255])) = 0
               ∨ Signal.val (exposure_time (after [255; 255])) < 15)
    by (right; vm_compute; reflexivity).
  assert (H5 : representable bench = true) by (vm_compute; reflexivity).
  assert (H6 : run bench wrapping_readings = Ok (after wrapping_readings))
    by (vm_compute; reflexivity).
  assert (H7 : last_write (t_event_radiation_log 0)
                 (writes bench wrapping_readings) = Some 12%nat)
    by (vm_compute; reflexivity).
  pose proof C10_logs_lockstep as (P1 & _ & P3).
  specialize (P1 (after [255; 255]) 1 H1 H3 H4).
  destruct P1 as (b1 & w & Hd & Ha & Ht & Hw & _).
  specialize (Hw H2). destruct Hw as (Hw1 & Hw2 & Hw3).
  specialize (P3 bench wrapping_readings (after wrapping_readings) 0%nat
                 H5 H6).
  destruct P3 as [P3 _].
  split; [exact H1|]. split; [exact H2|].
  split; [exists b1, w; repeat split; assumption|].
  split; [exact H6|]. split; [exact H7|]. symmetry. exact P3.
Defined.

Example last_write_wrapping :
  last_write (t_event_radiation_log 0) (writes bench wrapping_readings)
  = Some 12%nat
  ∧ log_record (after wrapping_readings) 0 = Some (11, 0).
Proof. vm_compute. split; reflexivity. Qed.

(** ** Further properties of the block *)

(** X1: elaboration raises [ValueError] exactly when [event_radiation_log]
    is empty (the cursor [intbv(0, min=0, max=0)] cannot hold 0); from
    signals sized as in the test bench and a non-empty log it yields a
    representable block whose cursor is 0. *)
Theorem X1_elaboration rl lim al mode exp acc rlog alog prot :
  sized 256 rl = true → sized 256 lim = true → sized 2 al = true →
  sized 4 mode = true → sized 16 exp = true → sized 65536 acc = true →
  Forall (λ s, sized 256 s = true) rlog →
  Forall (λ s, sized 4 s = true) alog →
  sized 2 prot = true → length alog = length rlog →
  (rlog = [] →
   RadiationAlertSystem rl lim al mode exp acc rlog alog prot
   = Raise ValueError)
  ∧ (rlog ≠ [] →
     ∃ b, RadiationAlertSystem rl lim al mode exp acc rlog alog prot = Ok b
          ∧ representable b = true
          ∧ Signal.val (log_index b) = 0
          ∧ Signal.max (log_index b) = Z.of_nat (length rlog)
          ∧ critical_limit b = Signal.val lim + 50).
Proof.
  intros Hrl Hlim Hal Hmode Hexp Hacc Hrlog Halog Hprot Hlen. split.
  - intros ->. reflexivity.
  - intros Hne.
    destruct (RadiationAlertSystem rl lim al mode exp acc rlog alog prot)
      as [b|e] eqn:E.
    + exists b. split; [reflexivity|].
      destruct (RadiationAlertSystem_representable _ _ _ _ _ _ _ _ _ _
                  Hrl Hlim Hal Hmode Hexp Hacc Hrlog Halog Hprot Hlen E)
        as [Hb H0].
      repeat split; try assumption.
      * apply representable_Wf, wf_log_index, sized_spec in Hb.
        destruct Hb as [Hm _]. rewrite Hm.
        revert E. unfold RadiationAlertSystem, intbv.
        destruct (_ && _); simpl; [|discriminate]. now intros [= <-].
      * revert E. unfold RadiationAlertSystem, intbv.
        destruct (_ && _); simpl; [|discriminate]. now intros [= <-].
    + exfalso. revert E. unfold RadiationAlertSystem, intbv.
      destruct rlog as [|s rlog]; [contradiction|].
      destruct (Z.ltb_spec 0 (Z.of_nat (length (s :: rlog)))) as [_|H];
        simpl in *; [discriminate|lia].
Qed.

Lemma X1_elaboration_witness :
  ∃ b, test_radiation_alert = Ok b ∧ representable b = true
       ∧ Signal.val (log_index b) = 0
       ∧ Signal.max (log_index b)
         = Z.of_nat (length (replicate 10 (intbv_bits 0 8)))
       ∧ critical_limit b = Signal.val (intbv_bits 100 8) + 50.
Proof.
  apply (X1_elaboration (intbv_bits 0 8) (intbv_bits 100 8) (intbv_bits 0 1)
           (intbv_bits 0 2) (intbv_bits 0 4) (intbv_bits 0 16)
           (replicate 10 (intbv_bits 0 8)) (replicate 10 (intbv_bits 0 2))
           (intbv_bits 0 1));
    try (vm_compute; reflexivity);
    try (repeat constructor); discriminate.
Defined.

(** X2: every run keeps the block representable: each signal stays within
    the bounds of its width, the two logs keep their common length, the
    cursor stays below the capacity, and the constants stay as elaborated. *)
Theorem X2_run_representable b rs b' :
  representable b = true → run b rs = Ok b' → representable b' = true.
Proof.
  rewrite !representable_Wf. apply run_Wf.
Qed.

Lemma X2_run_representable_witness :
  representable (after wrapping_readings) = true.
Proof.
  apply (X2_run_representable bench wrapping_readings);
    vm_compute; reflexivity.
Defined.

(** X3: on a representable block a tick succeeds exactly when the reading
    fits the 8-bit [radiation_level] and the exposure counter can take the
    increment of line 40 ([alert_mode] is 0 or [exposure_time] is below
    15); when it fails, the exception is [ValueError], never [IndexError]. *)
Theorem X3_tick_outcome b r :
  representable b = true →
  ((∃ b', tick b r = Ok b')
   ↔ 0 ≤ r < 256
     ∧ (Signal.val (alert_mode b) = 0 ∨ Signal.val (exposure_time b) < 15))
  ∧ (∀ e, tick b r = Raise e → e = ValueError).
Proof.
  intros Hb. apply representable_Wf in Hb. split; [split|].
  - intros [b' Ht]. destruct (tick_inv _ _ _ Hb Ht). auto.
  - intros [Hr Hc]. now apply tick_total.
  - intros e. rewrite tick_Wf by assumption.
    repeat case_match; congruence.
Qed.

Lemma X3_tick_outcome_witness :
  representable bench = true ∧ ∃ b', tick bench 255 = Ok b'.
Proof.
  assert (H : representable bench = true) by (vm_compute; reflexivity).
  split; [exact H|].
  apply (proj1 (X3_tick_outcome bench 255 H)).
  split; [lia|]. left. vm_compute. reflexivity.
Defined.

Lemma run_cons_inv b r rs b' :
  run b (r :: rs) = Ok b' → ∃ b1, tick b r = Ok b1 ∧ run b1 rs = Ok b'.
Proof.
  simpl. destruct (tick b r) as [b1|]; simpl; [eauto|discriminate].
Qed.

(** X5: the dose alarm never clears.  Once [accumulated_radiation] has
    reached 300, every later tick sets [alert] to 1, writes a log record
    and moves the cursor, whatever the readings. *)
Theorem X5_dose_alarm_persists b rs b1 r b2 :
  representable b = true →
  300 ≤ Signal.val (accumulated_radiation b) →
  run b rs = Ok b1 → tick b1 r = Ok b2 →
  Signal.val (alert b2) = 1
  ∧ log_record b2 (Z.to_nat (Signal.val (log_index b1)))
    = Some (r, Signal.val (alert_mode b1))
  ∧ Signal.val (log_index b2)
    = (Signal.val (log_index b1) + 1)
        mod Z.of_nat (length (event_radiation_log b1)).
Proof.
  intros Hb Hacc Hrun Ht. apply representable_Wf in Hb.
  pose proof (run_Wf _ _ _ Hb Hrun) as Hb1.
  pose proof (run_accumulated _ _ _ Hb Hrun) as Hle.
  assert (Htrip : trip b1 = true) by (apply trip_true; lia).
  destruct (tick_inv _ _ _ Hb1 Ht) as [_ _ _ _ _ _ _ _ _ _ Eal _ _ Eidx].
  rewrite (tick_log_record _ _ _ _ Hb1 Ht), Eal, Eidx, Htrip.
  rewrite bool_decide_true by reflexivity. repeat split.
Qed.

Lemma X5_dose_alarm_persists_witness :
  Signal.val (alert (after [255; 255; 0; 0])) = 1.
Proof.
  assert (H1 : representable (after [255; 255]) = true)
    by (vm_compute; reflexivity).
  assert (H2 : 300 ≤ Signal.val (accumulated_radiation (after [255; 255])))
    by (vm_compute; discriminate).
  assert (H3 : run (after [255; 255]) [0] = Ok (after [255; 255; 0]))
    by (vm_compute; reflexivity).
  assert (H4 : tick (after [255; 255; 0]) 0 = Ok (after [255; 255; 0; 0]))
    by (vm_compute; reflexivity).
  pose proof (X5_dose_alarm_persists (after [255; 255]) [0]
                (after [255; 255; 0]) 0 (after [255; 255; 0; 0])
                H1 H2 H3 H4) as [H _].
  exact H.
Defined.

Lemma run_readings_range b rs b' :
  Wf b → run b rs = Ok b' → Forall (λ r, 0 ≤ r < 256) rs.
Proof.
  revert b. induction rs as [|r rs IH]; intros b Hb; [constructor|].
  intros (b1 & Ht & Hrun)%run_cons_inv.
  destruct (tick_inv _ _ _ Hb Ht) as [Hr _ _ _ _ _ _ _ _ _ _ _ _ _].
  constructor; [assumption|].
  eapply IH; [|exact Hrun]. eauto using tick_Wf_preserved.
Qed.

Lemma dose_nonneg rs : Forall (λ r, 0 ≤ r < 256) rs → 0 ≤ dose rs.
Proof. induction 1; simpl; lia. Qed.

(** X6: the accumulator is the saturated sum.  After any run it holds the
    starting value plus the sum of all readings, or 65535 when that sum
    passes 65535. *)
Theorem X6_accumulator_is_saturated_sum b rs b' :
  representable b = true → run b rs = Ok b' →
  Signal.val (accumulated_radiation b')
  = Z.min (Signal.val (accumulated_radiation b) + dose rs) 65535.
Proof.
  intros Hb. apply representable_Wf in Hb.
  revert b Hb. induction rs as [|r rs IH]; intros b Hb.
  - intros [= <-]. simpl.
    apply wf_accumulated_radiation, sized_spec in Hb. lia.
  - intros (b1 & Ht & Hrun)%run_cons_inv.
    pose proof (tick_Wf_preserved _ _ _ Hb Ht) as Hb1.
    pose proof (dose_nonneg _ (run_readings_range _ _ _ Hb1 Hrun)).
    rewrite (IH _ Hb1 Hrun).
    destruct (tick_accumulated _ _ _ Hb Ht) as [_ ->]. simpl. lia.
Qed.

Lemma X6_accumulator_is_saturated_sum_witness :
  Signal.val (accumulated_radiation (after [45; 75; 150; 90; 200]))
  = Z.min (Signal.val (accumulated_radiation bench)
           + dose [45; 75; 150; 90; 200]) 65535.
Proof.
  assert (H1 : representable bench = true) by (vm_compute; reflexivity).
  assert (H2 : run bench [45; 75; 150; 90; 200]
               = Ok (after [45; 75; 150; 90; 200]))
    by (vm_compute; reflexivity).
  exact (X6_accumulator_is_saturated_sum bench [45; 75; 150; 90; 200]
           (after [45; 75; 150; 90; 200]) H1 H2).
Defined.

Lemma tick_mode_above b r b' :
  Wf b → tick b r = Ok b' → Signal.val (limit b) < r →
  Signal.val (alert_mode b') ≠ 0.
Proof.
  intros Hb Ht Hr.
  destruct (tick_inv _ _ _ Hb Ht) as [_ _ _ _ _ _ _ Emode _ _ _ _ _ _].
  rewrite Emode, !Z.gtb_ltb. simpl.
  destruct (Z.ltb_spec (critical_limit b) r),
    (Z.ltb_spec (Signal.val (limit b)) r); lia.
Qed.

Lemma run_exposed_raises l rs :
  ∀ b, Wf b → Signal.val (limit b) = l →
       Signal.val (alert_mode b) ≠ 0 →
       Forall (λ r, l < r < 256) rs →
       16 ≤ Signal.val (exposure_time b) + Z.of_nat (length rs) →
       run b rs = Raise ValueError.
Proof.
  induction rs as [|r rs IH]; intros b Hb Hl Hm Hrs Hlen.
  - apply wf_exposure_time, sized_spec in Hb. simpl in Hlen. lia.
  - apply Forall_cons in Hrs as [Hr Hrs].
    pose proof (wf_limit _ Hb) as Hlim. apply sized_spec in Hlim.
    pose proof (wf_exposure_time _ Hb) as Hexp. apply sized_spec in Hexp.
    destruct (decide (Signal.val (exposure_time b) = 15)) as [He|He].
    + simpl. rewrite tick_raises by (auto; lia). reflexivity.
    + destruct (tick_total b r) as [b1 Ht]; [assumption|lia|lia|].
      simpl. rewrite Ht. simpl.
      destruct (tick_inv _ _ _ Hb Ht) as [_ _ _ Elim _ _ _ _ _ Eexp _ _ _ _].
      apply IH.
      * eauto using tick_Wf_preserved.
      * now rewrite Elim.
      * apply (tick_mode_above b r); auto. lia.
      * assumption.
      * rewrite Eexp. simpl.
        destruct (Z.eqb_spec (Signal.val (alert_mode b)) 0);
          [contradiction|].
        simpl in Hlen. lia.
Qed.

(** X7: sustained exposure aborts the run.  From any representable block,
    seventeen consecutive 8-bit readings above [limit] end in
    [ValueError]: after the first of them the exposure counter grows by
    one per tick and line 40 cannot assign 16.  (Sixteen can pass: see
    C6.) *)
Theorem X7_sustained_exposure_raises b rs :
  representable b = true → (17 ≤ length rs)%nat →
  Forall (λ r, Signal.val (limit b) < r < 256) rs →
  run b rs = Raise ValueError.
Proof.
  intros Hb Hlen Hrs. apply representable_Wf in Hb.
  destruct rs as [|r rs]; [simpl in Hlen; lia|].
  apply Forall_cons in Hrs as [Hr Hrs].
  pose proof (wf_limit _ Hb) as Hlim. apply sized_spec in Hlim.
  simpl. destruct (tick b r) as [b1|e] eqn:Ht; simpl.
  - destruct (tick_inv _ _ _ Hb Ht) as [_ _ _ Elim _ _ _ _ _ _ _ _ _ _].
    pose proof (tick_Wf_preserved _ _ _ Hb Ht) as Hb1.
    pose proof (wf_exposure_time _ Hb1) as Hexp. apply sized_spec in Hexp.
    apply (run_exposed_raises (Signal.val (limit b))); auto.
    + now rewrite Elim.
    + apply (tick_mode_above b r); auto. lia.
    + simpl in Hlen. lia.
  - f_equal. revert Ht. rewrite tick_Wf by assumption.
    repeat case_match; congruence.
Qed.

Lemma X7_sustained_exposure_raises_witness :
  run bench (replicate 17 101) = Raise ValueError.
Proof.
  apply (X7_sustained_exposure_raises bench (replicate 17 101)).
  - vm_compute. reflexivity.
  - vm_compute. lia.
  - repeat constructor.
Defined.

(** X8: safe readings never abort.  From a representable block whose
    [alert_mode] is 0, every run of readings between 0 and [limit]
    succeeds, and after at least one such reading the mode, the
    protection flag and the exposure counter are all 0. *)
Theorem X8_safe_run b rs :
  representable b = true → Signal.val (alert_mode b) = 0 →
  Forall (λ r, 0 ≤ r ≤ Signal.val (limit b)) rs →
  ∃ b', run b rs = Ok b'
        ∧ Signal.val (alert_mode b') = 0
        ∧ (rs ≠ [] →
           Signal.val (protection_mode b') = 0
           ∧ Signal.val (exposure_time b') = 0).
Proof.
  intros Hb. apply representable_Wf in Hb.
  revert b Hb. induction rs as [|r rs IH]; intros b Hb Hm Hrs.
  - exists b. split; [reflexivity|]. split; [assumption|]. congruence.
  - apply Forall_cons in Hrs as [Hr Hrs].
    pose proof (wf_limit _ Hb) as Hlim. apply sized_spec in Hlim.
    pose proof (wf_critical_limit _ Hb) as Hcrit.
    destruct (tick_total b r) as [b1 Ht]; [assumption|lia|auto|].
    pose proof (tick_Wf_preserved _ _ _ Hb Ht) as Hb1.
    destruct (tick_inv _ _ _ Hb Ht)
      as [_ _ _ Elim _ _ _ Emode Eprot Eexp _ _ _ _].
    assert (Hm1 : Signal.val (alert_mode b1) = 0
                  ∧ Signal.val (protection_mode b1) = 0
                  ∧ Signal.val (exposure_time b1) = 0).
    { rewrite Emode, Eprot, Eexp, Hm, !Z.gtb_ltb.
      destruct (Z.ltb_spec (critical_limit b) r),
        (Z.ltb_spec (Signal.val (limit b)) r); simpl; lia. }
    destruct Hm1 as (Hm1 & Hp1 & He1).
    destruct (IH b1 Hb1 Hm1) as (b' & Hrun & Hm' & Hrest);
      [now rewrite Elim|].
    exists b'. simpl. rewrite Ht. simpl. repeat split; auto.
    + destruct rs; [|apply Hrest; discriminate].
      injection Hrun as <-. assumption.
    + destruct rs; [|apply Hrest; discriminate].
      injection Hrun as <-. assumption.
Qed.

Lemma X8_safe_run_witness :
  ∃ b', run bench [45; 75; 90; 100] = Ok b'
        ∧ Signal.val (alert_mode b') = 0
        ∧ ([45; 75; 90; 100] ≠ [] →
           Signal.val (protection_mode b') = 0
           ∧ Signal.val (exposure_time b') = 0).
Proof.
  apply (X8_safe_run bench [45; 75; 90; 100]).
  - vm_compute. reflexivity.
  - vm_compute. reflexivity.
  - repeat constructor; vm_compute; discriminate.
Defined.

Lemma run_untouched rs :
  ∀ b b' (n0 : nat),
    Wf b → run b rs = Ok b' →
    Z.to_nat (Signal.val (log_index b)) = n0 →
    (n0 + length (log_entries b rs) ≤ length (event_radiation_log b))%nat →
    ∀ i, (i < n0 ∨ n0 + length (log_entries b rs) ≤ i)%nat →
         log_record b' i = log_record b i.
Proof.
  induction rs as [|r rs IH]; intros b b' n0 Hb Hrun Hn0 Hfit i Hi.
  - now injection Hrun as <-.
  - apply run_cons_inv in Hrun as (b1 & Ht & Hrun).
    pose proof (tick_Wf_preserved _ _ _ Hb Ht) as Hb1.
    pose proof (wf_log_index _ Hb) as Hidx. apply sized_spec in Hidx.
    destruct (tick_inv _ _ _ Hb Ht) as [_ _ _ _ _ _ _ _ _ _ _ Erl _ Eidx].
    assert (HC : length (event_radiation_log b1)
                 = length (event_radiation_log b)).
    { rewrite Erl. destruct (trip b); [apply length_alter|reflexivity]. }
    simpl in Hfit, Hi. rewrite Ht in Hfit, Hi.
    destruct (trip b) eqn:Htrip; simpl in *.
    + assert (Hn1 : Z.to_nat (Signal.val (log_index b1))
                    = ((n0 + 1) mod length (event_radiation_log b))%nat).
      { rewrite Eidx. simpl. rewrite to_nat_succ_mod by lia.
        now rewrite Hn0. }
      destruct (decide (n0 + 1 = length (event_radiation_log b))%nat)
        as [Hwrap|Hwrap].
      * rewrite Hwrap, Nat.Div0.mod_same in Hn1.
        rewrite (IH b1 b' 0%nat) by (auto; lia).
        now rewrite (tick_log_record _ _ _ i Hb Ht), Htrip,
          bool_decide_false by lia.
      * rewrite Nat.mod_small in Hn1 by lia.
        rewrite (IH b1 b' (n0 + 1)%nat) by (auto; lia).
        now rewrite (tick_log_record _ _ _ i Hb Ht), Htrip,
          bool_decide_false by lia.
    + rewrite (IH b1 b' n0) by (auto; try rewrite Eidx; lia).
      now rewrite (tick_log_record _ _ _ i Hb Ht), Htrip.
Qed.

(** X9: before the first wraparound the log is a plain prefix.  Along a
    run that starts with the cursor at 0 and writes no more records than
    the capacity, position [i] holds the record number [i] for every
    record written, and every later position still holds what it held at
    the start. *)
Theorem X9_log_before_wraparound b rs b' :
  representable b = true → Signal.val (log_index b) = 0 →
  run b rs = Ok b' →
  (length (log_entries b rs) ≤ length (event_radiation_log b))%nat →
  (∀ i, (i < length (log_entries b rs))%nat →
        log_record b' i = log_entries b rs !! i)
  ∧ (∀ i, (length (log_entries b rs) ≤ i)%nat →
          log_record b' i = log_record b i).
Proof.
  intros Hb Hidx Hrun Hfit. apply representable_Wf in Hb. split.
  - intros i Hi.
    assert (Hring : ring b []).
    { split; [rewrite Hidx; simpl; now rewrite Nat.Div0.mod_0_l|].
      simpl. lia. }
    pose proof (run_ring _ _ _ _ Hb Hrun Hring) as [_ Hrec].
    rewrite (run_capacity _ _ _ Hb Hrun) in Hrec. simpl app in Hrec.
    rewrite <- Hrec by lia. f_equal. symmetry. apply Nat.mod_small. lia.
  - intros i Hi.
    apply (run_untouched rs b b' 0%nat); auto.
    now rewrite Hidx.
Qed.

Lemma X9_log_before_wraparound_witness :
  log_record (after [255; 255; 7; 8]) 1
  = log_entries bench [255; 255; 7; 8] !! 1%nat
  ∧ log_record (after [255; 255; 7; 8]) 5 = log_record bench 5.
Proof.
  assert (H1 : representable bench = true) by (vm_compute; reflexivity).
  assert (H2 : Signal.val (log_index bench) = 0)
    by (vm_compute; reflexivity).
  assert (H3 : run bench [255; 255; 7; 8] = Ok (after [255; 255; 7; 8]))
    by (vm_compute; reflexivity).
  assert (H4 : (length (log_entries bench [255; 255; 7; 8]%Z)
                ≤ length (event_radiation_log bench))%nat)
    by (vm_compute; lia).
  assert (H5 : (1 < length (log_entries bench [255; 255; 7; 8]%Z))%nat)
    by (vm_compute; lia).
  assert (H6 : (length (log_entries bench [255; 255; 7; 8]%Z) ≤ 5)%nat)
    by (vm_compute; lia).
  pose proof (X9_log_before_wraparound bench [255; 255; 7; 8]
                (after [255; 255; 7; 8]) H1 H2 H3 H4) as [Ha Hb].
  split; [exact (Ha 1%nat H5)|exact (Hb 5%nat H6)].
Defined.
